(** * A shallow embedding of the MINIX v3 image reader of fs_util.c and minls.c

    The disk image is a list of byte values (each in [0, 256)).  The C
    program keeps its state in globals ([image_fp], [fs_offset], [curr_sb],
    [zone_size], [blks_per_zone], [verbose]); here they form the record
    [fs_state] that [init_filesystem] builds and every later function
    receives.  Unsigned 32-bit arithmetic is written out with [u32]; reads
    from the image return [option] (None is a failed [fseek]/[fread]).
    Output is a list of [event]s, one per [printf]/[fprintf] call, in order.

    A run either returns, runs forever, or reaches an operation whose
    behaviour the C standard leaves undefined (a division by zero, a
    variable-length array of length 0, a write past an array, a read past a
    buffer, an out-of-range shift, a signed overflow): [outcome] has one
    constructor for each.  Two points follow GCC on x86-64 rather than the
    letter of the standard: [1 << 31] is [INT_MIN] (GCC documents signed
    left shifts as two's complement), and the on-disk structures are read
    through casts of byte buffers (and [time_t *] casts in
    [print_verbose_inode]) as the bytes at those addresses. *)

From Stdlib Require Import ZArith List String Ascii Bool Lia.
From Stdlib Require Import Numbers.DecimalString.
From Stdlib Require NArith.Nnat Numbers.DecimalFacts Numbers.DecimalPos Numbers.DecimalN.
Import ListNotations.
Open Scope Z_scope.

(* ------------------------------------------------------------------ *)
(** ** Machine arithmetic and little-endian decoding *)

Definition u32 (x : Z) : Z := x mod 2 ^ 32.

(** A signed 16-bit field ([int16_t]) from its two's-complement bits. *)
Definition s16 (x : Z) : Z := if x <? 2 ^ 15 then x else x - 2 ^ 16.

(** A signed 32-bit field ([int32_t]) from its two's-complement bits. *)
Definition s32 (x : Z) : Z := if x <? 2 ^ 31 then x else x - 2 ^ 32.

Definition byte_at (buf : list Z) (k : Z) : Z := nth (Z.to_nat k) buf 0.

Definition le16 (buf : list Z) (k : Z) : Z :=
  byte_at buf k + 256 * byte_at buf (k + 1).

Definition le32 (buf : list Z) (k : Z) : Z :=
  le16 buf k + 65536 * le16 buf (k + 2).

Definition sublist (off n : Z) (l : list Z) : list Z :=
  firstn (Z.to_nat n) (skipn (Z.to_nat off) l).

(** The largest [off_t] (and [long]). *)
Definition OFF_MAX : Z := 2 ^ 63 - 1.

(* ------------------------------------------------------------------ *)
(** ** Constants of fs_util.h *)

Definition DIRECT_ZONES : Z := 7.
Definition INODE_SIZE : Z := 64.
Definition DIR_ENTRY_SIZE : Z := 64.
Definition SECTOR_SIZE : Z := 512.
Definition PARTITION_TABLE_OFFSET : Z := 446.

(** [errno] after [fseek] to a negative position (Linux). *)
Definition EINVAL : Z := 22.

(* ------------------------------------------------------------------ *)
(** ** On-disk records (packed, little-endian) *)

Record minix_superblock_t := {
  ninodes : Z; pad1 : Z; i_blocks : Z; z_blocks : Z; firstdata : Z;
  log_zone_size : Z; pad2 : Z; max_file : Z; zones : Z; magic : Z;
  pad3 : Z; blocksize : Z; subversion : Z }.

(** [sizeof(minix_superblock_t)] of the packed struct. *)
Definition SUPERBLOCK_SIZE : Z := 31.

Definition parse_superblock (b : list Z) : minix_superblock_t := {|
  ninodes := le32 b 0; pad1 := le16 b 4; i_blocks := s16 (le16 b 6);
  z_blocks := s16 (le16 b 8); firstdata := le16 b 10;
  log_zone_size := s16 (le16 b 12); pad2 := s16 (le16 b 14);
  max_file := le32 b 16; zones := le32 b 20; magic := s16 (le16 b 24);
  pad3 := s16 (le16 b 26); blocksize := le16 b 28; subversion := byte_at b 30 |}.

Record minix_inode_t := {
  mode : Z; links : Z; uid : Z; gid : Z; size : Z;
  atime : Z; mtime : Z; ctime : Z;
  zone : list Z; indirect : Z; two_indirect : Z; unused : Z }.

Definition parse_inode (b : list Z) : minix_inode_t := {|
  mode := le16 b 0; links := le16 b 2; uid := le16 b 4; gid := le16 b 6;
  size := le32 b 8; atime := s32 (le32 b 12); mtime := s32 (le32 b 16);
  ctime := s32 (le32 b 20);
  zone := map (fun k => le32 b (24 + 4 * k)) [0; 1; 2; 3; 4; 5; 6];
  indirect := le32 b 52; two_indirect := le32 b 56; unused := le32 b 60 |}.

(* ------------------------------------------------------------------ *)
(** ** Output, formatting and outcomes *)

(** Output written to the standard streams, in order. *)
Inductive event : Type :=
| Out (s : string)
| Err (s : string).

Definition nl : string := String (ascii_of_nat 10) EmptyString.

(** [%u] (also [%zu]) of a nonnegative value. *)
Definition fmt_u (x : Z) : string := NilEmpty.string_of_uint (N.to_uint (Z.to_N x)).

(** [%d] and [%ld]. *)
Definition fmt_ld (x : Z) : string :=
  if x <? 0 then ("-" ++ fmt_u (- x))%string else fmt_u x.

Definition hex_digit (d : Z) : ascii :=
  ascii_of_nat (Z.to_nat (if d <? 10 then 48 + d else 87 + d)).

(** The hexadecimal digits of [x], least significant first. *)
Fixpoint hex_rev (fuel : nat) (x : Z) : list ascii :=
  match fuel with
  | O => []
  | S f => hex_digit (x mod 16) :: (if x / 16 =? 0 then [] else hex_rev f (x / 16))
  end.

(** [%0wx] of an [unsigned int] ([%x] is [fmt_x_pad 0]). *)
Definition fmt_x_pad (w : nat) (x : Z) : string :=
  let ds := rev (hex_rev 8 x) in
  string_of_list_ascii (repeat "0"%char (w - List.length ds) ++ ds).

(** What a run of a C function does: return a value, run forever, or reach
    undefined behaviour. *)
Inductive outcome (A : Type) : Type :=
| Returns (a : A)
| Diverges
| Undefined.
Arguments Returns {A} a.
Arguments Diverges {A}.
Arguments Undefined {A}.

Definition outcome_map {A B : Type} (f : A -> B) (o : outcome A) : outcome B :=
  match o with
  | Returns a => Returns (f a)
  | Diverges => Diverges
  | Undefined => Undefined
  end.

(* ------------------------------------------------------------------ *)
(** ** The image and the global state *)

(** [fseek(image_fp, abs, SEEK_SET)] then [fread(buf, 1, n, image_fp) == n]:
    a negative position fails the seek; a read that runs past the end of the
    image is short and fails; a read of 0 bytes always succeeds. *)
Definition read_at (image : list Z) (abs n : Z) : option (list Z) :=
  if abs <? 0 then None
  else if n =? 0 then Some []
  else if Z.of_nat (List.length image) <? abs + n then None
  else Some (sublist abs n image).

Record fs_state := {
  image_fp : list Z;
  fs_offset : Z;
  curr_sb : minix_superblock_t;
  zone_size : Z;
  blks_per_zone : Z;
  verbose : Z }.

(** [read_fs_bytes]: a read relative to the filesystem start, with the
    messages it prints when [verbose] is set. *)
Definition read_fs_bytes_d (st : fs_state) (offset_from_fs_start nbytes : Z)
  : option (list Z) * list event :=
  let abs_offset := fs_offset st + offset_from_fs_start in
  if abs_offset <? 0 then
    (None, if verbose st =? 0 then []
           else [Err ("read_fs_bytes: " ++ "        fseek to offset " ++ fmt_ld abs_offset ++
                      " failed (errno: " ++ fmt_ld EINVAL ++ ")." ++ nl)%string])
  else
    match read_at (image_fp st) abs_offset nbytes with
    | Some b => (Some b, [])
    | None =>
        (None, if verbose st =? 0 then []
               else [Err ("read_fs_bytes: " ++ "        fread " ++ fmt_u nbytes ++
                          " bytes at offset " ++ fmt_ld abs_offset ++ " failed." ++ nl)%string])
    end.

(** The bytes read, or [None] when [read_fs_bytes] returns -1. *)
Definition read_fs_bytes (st : fs_state) (offset_from_fs_start nbytes : Z) : option (list Z) :=
  fst (read_fs_bytes_d st offset_from_fs_start nbytes).

(** How many bytes [fread] stores into the buffer of a [read_fs_bytes] of
    [nbytes]: none when the seek fails, otherwise what the image still holds
    from that position on, at most [nbytes]. *)
Definition fread_stored (st : fs_state) (offset_from_fs_start nbytes : Z) : Z :=
  let abs_offset := fs_offset st + offset_from_fs_start in
  if abs_offset <? 0 then 0
  else Z.max 0 (Z.min nbytes (Z.of_nat (List.length (image_fp st)) - abs_offset)).

(* ------------------------------------------------------------------ *)
(** ** Partition tables: [read_mbr_and_check_magic], [get_partition_start]

    Each function gives its result and the messages it writes to
    [stderr].  [%d]/[%ld] print signed decimals, [%02x]/[%04x] lowercase
    hexadecimal padded with zeros; an [int] printed with [%x] is taken as
    unsigned.  The image lies on a filesystem where [fseek] accepts every
    position from 0 to [OFF_MAX] (a position past the end makes the
    following [fread] short). *)

Definition read_mbr_and_check_magic_d (image : list Z) (table_addr : Z)
  : option (list Z) * list event :=
  let pos := table_addr - PARTITION_TABLE_OFFSET in
  if pos <? 0 then
    (None, [Err ("Error: fseek to MBR offset " ++ fmt_ld pos ++ " failed." ++ nl)%string])
  else
    match read_at image pos SECTOR_SIZE with
    | None =>
        (None, [Err ("Error: Failed to read MBR at offset " ++ fmt_ld pos ++ "." ++ nl)%string])
    | Some mbr =>
        if (byte_at mbr 510 =? 85) && (byte_at mbr 511 =? 170) then (Some mbr, [])
        else (None, [Err ("Partition table with bad magic: 0x" ++
                          fmt_x_pad 2 (byte_at mbr 511) ++ fmt_x_pad 2 (byte_at mbr 510) ++
                          nl)%string])
    end.

Definition read_mbr_and_check_magic (image : list Z) (table_addr : Z) : option (list Z) :=
  fst (read_mbr_and_check_magic_d image table_addr).

(** The LBA start sector of entry [part_num], 0 on any failure. *)
Definition get_partition_start_d (image : list Z) (part_num table_addr : Z)
  : Z * list event :=
  match read_mbr_and_check_magic_d image table_addr with
  | (None, e) => (0, e)
  | (Some mbr, _) =>
      if (part_num <? 0) || (4 <=? part_num) then
        (0, [Err ("Partition number " ++ fmt_ld part_num ++
                  " is out of range (0-3)." ++ nl)%string])
      else
        let e := PARTITION_TABLE_OFFSET + 16 * part_num in
        if negb (byte_at mbr (e + 4) =? 129) then
          (0, [Err ("Partition " ++ fmt_ld part_num ++ " is type 0x" ++
                    fmt_x_pad 2 (byte_at mbr (e + 4)) ++
                    ",         not a MINIX partition (0x81)." ++ nl)%string])
        else (le32 mbr (e + 8), [])
  end.

Definition get_partition_start (image : list Z) (part_num table_addr : Z) : Z :=
  fst (get_partition_start_d image part_num table_addr).

(** Step 1 of [init_filesystem]: the value given to [fs_offset], or the
    early [return -1]. *)
Definition init_fs_offset_d (image : list Z) (p_num s_num : Z) : option Z * list event :=
  if p_num =? -1 then (Some 0, [])
  else
    let '(p_start_sector, e1) := get_partition_start_d image p_num PARTITION_TABLE_OFFSET in
    if p_start_sector =? 0 then (None, e1)
    else
      let off := p_start_sector * SECTOR_SIZE in
      if s_num =? -1 then (Some off, e1)
      else
        let '(s_start, e2) :=
          get_partition_start_d image s_num (off + PARTITION_TABLE_OFFSET) in
        if s_start =? 0 then (None, e1 ++ e2)
        else (Some (s_start * SECTOR_SIZE), e1 ++ e2).

Definition init_fs_offset (image : list Z) (p_num s_num : Z) : option Z :=
  fst (init_fs_offset_d image p_num s_num).

(* ------------------------------------------------------------------ *)
(** ** [init_filesystem] and [print_verbose_superblk] *)

Definition print_verbose_superblk (image_file : string) (p_num s_num : Z) (st : fs_state)
  : list event :=
  let sb := curr_sb st in
  [Err (nl ++ "=== VERBOSE MODE (fs_util.c) ===" ++ nl)%string;
   Err ("Image File: " ++ image_file ++ nl)%string;
   Err ("Partition: " ++ fmt_ld p_num ++ ", Subpartition: " ++ fmt_ld s_num ++ nl)%string;
   Err ("FS Start (Disk Offset): " ++ fmt_ld (fs_offset st) ++ " bytes (Sector: " ++
        fmt_ld (Z.quot (fs_offset st) SECTOR_SIZE) ++ ")" ++ nl)%string;
   Err (nl ++ "Superblk Contents:" ++ nl)%string;
   Err ("  ninodes:    " ++ fmt_u (ninodes sb) ++ nl)%string;
   Err ("  i_blks:    " ++ fmt_ld (i_blocks sb) ++ nl)%string;
   Err ("  z_blks:    " ++ fmt_ld (z_blocks sb) ++ nl)%string;
   Err ("  firstdata:   " ++ fmt_u (firstdata sb) ++ nl)%string;
   Err ("  log_zone_size: " ++ fmt_ld (log_zone_size sb) ++ " (zone size: " ++
        fmt_u (zone_size st) ++ ")" ++ nl)%string;
   Err ("  max_file:    " ++ fmt_u (max_file sb) ++ nl)%string;
   Err ("  zones:     " ++ fmt_u (zones sb) ++ nl)%string;
   Err ("  magic:     0x" ++ fmt_x_pad 0 (u32 (magic sb)) ++ nl)%string;
   Err ("  blksize:   " ++ fmt_u (blocksize sb) ++ nl)%string;
   Err ("  subversion:   " ++ fmt_u (subversion sb) ++ nl)%string;
   Err ("==================================" ++ nl)%string].

(** [init_filesystem] for an image that opens: the state it sets up (or
    [None] for [return -1]) and its messages.  [blks_per_zone = 1 <<
    log_zone_size] is undefined unless [0 <= log_zone_size <= 31]. *)
Definition init_filesystem_d (image : list Z) (image_file : string) (p_num s_num verbose_flag : Z)
  : outcome (option fs_state * list event) :=
  match init_fs_offset_d image p_num s_num with
  | (None, e) => Returns (None, e)
  | (Some off, e) =>
      let st0 := {| image_fp := image; fs_offset := off; curr_sb := parse_superblock [];
                    zone_size := 0; blks_per_zone := 0; verbose := verbose_flag |} in
      match read_fs_bytes_d st0 1024 SUPERBLOCK_SIZE with
      | (None, e1) =>
          Returns (None, e ++ e1 ++ [Err ("Error reading superblk (offset " ++
                                          fmt_ld (off + 1024) ++ ")." ++ nl)%string])
      | (Some b, _) =>
          let sb := parse_superblock b in
          if negb (magic sb =? 19802) then
            Returns (None, e ++ [Err ("Bad magic number. (0x" ++ fmt_x_pad 4 (u32 (magic sb)) ++
                                      ")" ++ nl)%string;
                                 Err ("This doesn't look like a MINIX filesystem." ++ nl)%string])
          else if (log_zone_size sb <? 0) || (31 <? log_zone_size sb) then Undefined
          else
            let bpz := u32 (Z.shiftl 1 (log_zone_size sb)) in
            let st := {| image_fp := image; fs_offset := off; curr_sb := sb;
                         zone_size := u32 (blocksize sb * bpz);
                         blks_per_zone := bpz; verbose := verbose_flag |} in
            Returns (Some st, e ++ if verbose_flag =? 0 then []
                                   else print_verbose_superblk image_file p_num s_num st)
      end
  end.

Definition init_filesystem (image : list Z) (p_num s_num verbose_flag : Z)
  : outcome (option fs_state) :=
  outcome_map fst (init_filesystem_d image EmptyString p_num s_num verbose_flag).

(* ------------------------------------------------------------------ *)
(** ** Inodes and blocks: [read_inode], [get_file_blk] *)

Definition read_inode_d (st : fs_state) (inode_num : Z) : option minix_inode_t * list event :=
  let sb := curr_sb st in
  if (inode_num =? 0) || (ninodes sb <? inode_num) then (None, [])
  else
    let inode_start_blk := u32 (2 + i_blocks sb + z_blocks sb) in
    let i := inode_num - 1 in
    let offset := inode_start_blk * blocksize sb + i * INODE_SIZE in
    let '(r, e) := read_fs_bytes_d st offset INODE_SIZE in
    (option_map parse_inode r, e).

Definition read_inode (st : fs_state) (inode_num : Z) : option minix_inode_t :=
  fst (read_inode_d st inode_num).

(** One table read of [get_file_blk]: [uint32_t ptrs[cap]] then
    [read_fs_bytes((off_t)z * zone_size, ptrs, blksize)].  Undefined when the
    array has length 0, when the signed 64-bit offset overflows, or when
    [fread] stores more bytes than the array holds. *)
Definition read_table (st : fs_state) (z cap : Z) : outcome (option (list Z) * list event) :=
  let off := z * zone_size st in
  let bs := blocksize (curr_sb st) in
  if (cap =? 0) || (OFF_MAX <? off) || (OFF_MAX <? fs_offset st + off) ||
     (4 * cap <? fread_stored st off bs)
  then Undefined
  else Returns (read_fs_bytes_d st off bs).

(** [get_file_blk]: the disk block (0 for holes and failed reads) and the
    messages of its reads.  [1 << log_zone_size] is undefined outside
    [0..31]; the double-indirect branch divides by [ptrs_in_single] once its
    first read succeeded. *)
Definition get_file_blk_d (st : fs_state) (ino : minix_inode_t) (logical_blk : Z)
  : outcome (Z * list event) :=
  let sb := curr_sb st in
  if (log_zone_size sb <? 0) || (31 <? log_zone_size sb) then Undefined
  else
  let blks_per_zone_val := u32 (Z.shiftl 1 (log_zone_size sb)) in
  let ptrs_per_blk := blocksize sb / 4 in
  let logical_zone := logical_blk / blks_per_zone_val in
  let blk_in_zone := logical_blk mod blks_per_zone_val in
  let finish (zone_num : Z) (evs : list event) : outcome (Z * list event) :=
    if zone_num =? 0 then Returns (0, evs)
    else Returns (u32 (zone_num * blks_per_zone_val + blk_in_zone), evs) in
  if logical_zone <? DIRECT_ZONES then
    finish (nth (Z.to_nat logical_zone) (zone ino) 0) []
  else if logical_zone <? DIRECT_ZONES + ptrs_per_blk then
    let indir_zone_i := logical_zone - DIRECT_ZONES in
    if indirect ino =? 0 then finish 0 []
    else
      match read_table st (indirect ino) ptrs_per_blk with
      | Undefined => Undefined
      | Diverges => Diverges
      | Returns (Some indir_ptrs, e) => finish (le32 indir_ptrs (4 * indir_zone_i)) e
      | Returns (None, e) => finish 0 e
      end
  else
    let ptrs_in_single := ptrs_per_blk in
    let double_indir_start := DIRECT_ZONES + ptrs_in_single in
    let offset_in_double := logical_zone - double_indir_start in
    if two_indirect ino =? 0 then finish 0 []
    else
      match read_table st (two_indirect ino) ptrs_in_single with
      | Undefined => Undefined
      | Diverges => Diverges
      | Returns (None, e) => finish 0 e
      | Returns (Some first_level_ptrs, e) =>
          let first_level_i := offset_in_double / ptrs_in_single in
          if first_level_i <? ptrs_in_single then
            let second_level_zone := le32 first_level_ptrs (4 * first_level_i) in
            if second_level_zone =? 0 then finish 0 e
            else
              match read_table st second_level_zone ptrs_in_single with
              | Undefined => Undefined
              | Diverges => Diverges
              | Returns (Some second_level_ptrs, e2) =>
                  finish (le32 second_level_ptrs (4 * (offset_in_double mod ptrs_in_single))) (e ++ e2)
              | Returns (None, e2) => finish 0 (e ++ e2)
              end
          else finish 0 e
      end.

(** The value [get_file_blk] returns. *)
Definition get_file_blk (st : fs_state) (ino : minix_inode_t) (logical_blk : Z) : outcome Z :=
  outcome_map fst (get_file_blk_d st ino logical_blk).
(* ------------------------------------------------------------------ *)
(** ** C strings and [strtok_r] *)


Definition is_slash (c : ascii) : bool := Ascii.eqb c "/"%char.

(** The characters of a C string: everything before the first NUL. *)
Fixpoint c_str (l : list ascii) : list ascii :=
  match l with
  | [] => []
  | c :: r => if Ascii.eqb c "000"%char then [] else c :: c_str r
  end.

Fixpoint skip_delims (l : list ascii) : list ascii :=
  match l with
  | c :: r => if is_slash c then skip_delims r else l
  | [] => []
  end.

(** The token up to the next ['/'] and what follows that delimiter (the
    delimiter itself is overwritten with NUL by [strtok_r]). *)
Fixpoint take_token (l : list ascii) : list ascii * list ascii :=
  match l with
  | [] => ([], [])
  | c :: r =>
      if is_slash c then ([], r)
      else let '(t, rest) := take_token r in (c :: t, rest)
  end.

(** One call of [strtok_r(s, "/", &saveptr)]: the token and the new
    [saveptr] (the text that remains), or [NULL]. *)
Definition strtok_r (l : list ascii) : option (list ascii * list ascii) :=
  match skip_delims l with
  | [] => None
  | l' => Some (take_token l')
  end.

(** The successive tokens with the [saveptr] after each.  Every call that
    returns a token consumes at least one character, so [length l] calls
    reach the final [NULL]. *)
Fixpoint strtok_loop (fuel : nat) (l : list ascii) : list (list ascii * list ascii) :=
  match fuel with
  | O => []
  | S f =>
      match strtok_r l with
      | None => []
      | Some (t, rest) => (t, rest) :: strtok_loop f rest
      end
  end.

Definition tokenize (l : list ascii) : list (list ascii * list ascii) :=
  strtok_loop (List.length l) l.

(* ------------------------------------------------------------------ *)
(** ** [canonicalize_path] *)

(** The copy loop: each token, followed by ['/'] when another token comes. *)
Fixpoint join_slash (ts : list (list ascii)) : list ascii :=
  match ts with
  | [] => []
  | t :: r => t ++ match r with [] => [] | _ :: _ => "/"%char :: join_slash r end
  end.

Definition list_ascii_eqb (a b : list ascii) : bool :=
  String.eqb (string_of_list_ascii a) (string_of_list_ascii b).

Definition canonicalize_path_l (path0 : list ascii) : list ascii :=
  let path := c_str path0 in
  match path with
  | [] => ["/"%char]
  | _ :: _ =>
      let new_path := "/"%char :: join_slash (map fst (tokenize path)) in
      if list_ascii_eqb new_path ["/"%char] then new_path
      else if (1 <? List.length new_path)%nat && is_slash (last new_path "000"%char)
      then removelast new_path
      else new_path
  end.

Definition canonicalize_path (path : string) : string :=
  string_of_list_ascii (canonicalize_path_l (list_ascii_of_string path)).

(* ------------------------------------------------------------------ *)
(** ** Directory entries and name matching in [get_inode_by_path] *)

Definition bytes_of (l : list ascii) : list Z :=
  map (fun c => Z.of_nat (nat_of_ascii c)) l.

(** [strncmp(s1, s2, n) == 0]; a string ends with NUL ([hd 0 []]). *)
Fixpoint strncmp_eq (s1 s2 : list Z) (n : nat) : bool :=
  match n with
  | O => true
  | S n' =>
      let c1 := hd 0 s1 in
      let c2 := hd 0 s2 in
      if negb (c1 =? c2) then false
      else if c1 =? 0 then true
      else strncmp_eq (tl s1) (tl s2) n'
  end.

(** The three [continue] tests of the entry loop, for a token and the
    60 name bytes of an entry. *)
Definition name_matches (token name : list Z) : bool :=
  let token_len := Z.of_nat (List.length token) in
  if 60 <? token_len then false
  else if negb (strncmp_eq token name (List.length token)) then false
  else if (token_len <? 60) && negb (byte_at name token_len =? 0) then false
  else true.

(** The name of an entry as the spec reads it: the bytes up to the first NUL
    within the 60 name bytes. *)
Fixpoint take_until_nul (l : list Z) : list Z :=
  match l with
  | [] => []
  | b :: r => if b =? 0 then [] else b :: take_until_nul r
  end.

Definition dir_entry_name (name : list Z) : list Z := take_until_nul (firstn 60 name).

Definition entry_inode (buf : list Z) (j : Z) : Z := le32 buf (j * DIR_ENTRY_SIZE).

Definition entry_name (buf : list Z) (j : Z) : list Z :=
  sublist (j * DIR_ENTRY_SIZE + 4) 60 buf.

(** [for (j = 0; cond(j); j++)]: the indices visited.  The slot loops below
    exit before [j] reaches [blocksize + 1], their fuel. *)
Fixpoint for_indices (fuel : nat) (cond : Z -> bool) (j : Z) : list Z :=
  match fuel with
  | O => []
  | S f => if cond j then j :: for_indices f cond (j + 1) else []
  end.

Definition slot_fuel (bs : Z) : nat := S (Z.to_nat bs).

(** [j*DIR_ENTRY_SIZE < curr_sb.blksize] (32-bit product), in
    [get_inode_by_path]. *)
Definition resolve_slot_cond (bs j : Z) : bool := u32 (j * DIR_ENTRY_SIZE) <? bs.

(** [j < entries_per_block] with [entries_per_block = blocksize / DIR_ENTRY_SIZE],
    in [list_directory_contents]. *)
Definition list_slot_cond (bs j : Z) : bool := j <? bs / DIR_ENTRY_SIZE.

Definition resolve_slots (bs : Z) : list Z := for_indices (slot_fuel bs) (resolve_slot_cond bs) 0.
Definition list_slots (bs : Z) : list Z := for_indices (slot_fuel bs) (list_slot_cond bs) 0.

(** How many bytes of [s2] [strncmp(s1, s2, n)] reads: up to the first
    difference or NUL, at most [n]. *)
Fixpoint strncmp_len (s1 s2 : list Z) (n : nat) : Z :=
  match n with
  | O => 0
  | S n' =>
      let c1 := hd 0 s1 in
      let c2 := hd 0 s2 in
      if negb (c1 =? c2) then 1
      else if c1 =? 0 then 1
      else 1 + strncmp_len (tl s1) (tl s2) n'
  end.

(** How many bytes of an in-use entry's name the tests of [name_matches]
    read: none for a token longer than 60, then those of [strncmp], then
    [name[token_len]]. *)
Definition name_bytes_read (token name : list Z) : Z :=
  let token_len := Z.of_nat (List.length token) in
  if 60 <? token_len then 0
  else if negb (strncmp_eq token name (List.length token)) then
    strncmp_len token name (List.length token)
  else if token_len <? 60 then token_len + 1
  else token_len.

(* ------------------------------------------------------------------ *)
(** ** Loops over a [uint32_t] counter

    [for (i = 0; cond; i++)] with [uint32_t i], where what an iteration
    does depends on [i] only, either leaves within 2^32 iterations or, once
    [i] wraps to 0, repeats the same iterations forever.  [iter_pos p f a]
    runs at most [p] steps of [f] and stops at the first [inr]. *)

Fixpoint iter_pos {A B : Type} (p : positive) (f : A -> A + B) (a : A) : A + B :=
  match p with
  | xH => f a
  | xO q =>
      match iter_pos q f a with
      | inl a' => iter_pos q f a'
      | inr b => inr b
      end
  | xI q =>
      match f a with
      | inl a1 =>
          match iter_pos q f a1 with
          | inl a' => iter_pos q f a'
          | inr b => inr b
          end
      | inr b => inr b
      end
  end.

Definition loop_u32 {A B : Type} (f : A -> A + outcome B) (a : A) : outcome B :=
  match iter_pos (2 ^ 32)%positive f a with
  | inl _ => Diverges
  | inr o => o
  end.

(* ------------------------------------------------------------------ *)
(** ** [get_inode_by_path] *)

Definition S_IFMT : Z := 61440.   (* 0170000 *)
Definition S_IFDIR : Z := 16384.  (* 0040000 *)

Definition is_dir_mode (m : Z) : bool := Z.land m S_IFMT =? S_IFDIR.

(** The entry loop over one directory block of [bs] bytes: the inode of the
    first match, 0 when none.  Reading [entry->inode] or a byte of
    [entry->name] at or past [bs] is a read outside [dir_blk_buf]. *)
Fixpoint find_entry (buf token : list Z) (bs : Z) (js : list Z) : outcome Z :=
  match js with
  | [] => Returns 0
  | j :: r =>
      if bs <? j * DIR_ENTRY_SIZE + 4 then Undefined
      else
        let ent := entry_inode buf j in
        if ent =? 0 then find_entry buf token bs r
        else if bs <? j * DIR_ENTRY_SIZE + 4 + name_bytes_read token (entry_name buf j)
        then Undefined
        else if name_matches token (entry_name buf j) then Returns ent
        else find_entry buf token bs r
  end.

(** One iteration of the block loop [for (i = 0; i * blksize < size; i++)]
    with the messages so far: [inl] the next [i] ([continue]), [inr] how the
    loop ends ([target_inode] 0 when the condition fails, the match after
    [goto]).  [uint8_t dir_blk_buf[blksize]] has length 0 when [blksize]
    is 0. *)
Definition scan_step (st : fs_state) (dir_inode : minix_inode_t) (token : list Z)
  (s : Z * list event) : (Z * list event) + outcome (Z * list event) :=
  let '(i, evs) := s in
  let bs := blocksize (curr_sb st) in
  if negb (u32 (i * bs) <? size dir_inode) then inr (Returns (0, evs))
  else
    match get_file_blk_d st dir_inode i with
    | Undefined => inr Undefined
    | Diverges => inr Diverges
    | Returns (disk_blk, e1) =>
        if disk_blk =? 0 then inl (u32 (i + 1), evs ++ e1)
        else if bs =? 0 then inr Undefined
        else
          match read_fs_bytes_d st (disk_blk * bs) bs with
          | (None, e2) => inl (u32 (i + 1), evs ++ e1 ++ e2)
          | (Some dir_blk_buf, _) =>
              match find_entry dir_blk_buf token bs (resolve_slots bs) with
              | Undefined => inr Undefined
              | Diverges => inr Diverges
              | Returns t =>
                  if t =? 0 then inl (u32 (i + 1), evs ++ e1)
                  else inr (Returns (t, evs ++ e1))
              end
          end
    end.

Definition scan_dir (st : fs_state) (dir_inode : minix_inode_t) (token : list Z)
  : outcome (Z * list event) :=
  loop_u32 (scan_step st dir_inode token) (0, []).

Definition not_a_directory_msg (canonical_path : list ascii) : string :=
  ("Not a directory: trying to traverse file: " ++
   string_of_list_ascii canonical_path ++ nl)%string.

(** The component loop; each token comes with the [saveptr] text after it
    ([next_token_start]). *)
Fixpoint resolve_components (st : fs_state) (canonical_path : list ascii)
  (curr_inode_num : Z) (toks : list (list ascii * list ascii))
  : outcome (Z * list event) :=
  match toks with
  | [] => Returns (curr_inode_num, [])
  | (token, next_token_start) :: toks' =>
      let '(r0, e0) := read_inode_d st curr_inode_num in
      match r0 with
      | None => Returns (0, e0)
      | Some dir_inode =>
          match scan_dir st dir_inode (bytes_of token) with
          | Diverges => Diverges
          | Undefined => Undefined
          | Returns (target_inode, e1) =>
              if target_inode =? 0 then Returns (0, e0 ++ e1)
              else
                let '(r2, e2) := read_inode_d st target_inode in
                match r2 with
                | None => Returns (0, e0 ++ e1 ++ e2)
                | Some target_inode_data =>
                    if match next_token_start with [] => false | _ :: _ => true end &&
                       negb (is_dir_mode (mode target_inode_data))
                    then Returns (0, e0 ++ e1 ++ e2 ++ [Err (not_a_directory_msg canonical_path)])
                    else
                      match resolve_components st canonical_path target_inode toks' with
                      | Returns (x, e3) => Returns (x, e0 ++ e1 ++ e2 ++ e3)
                      | Diverges => Diverges
                      | Undefined => Undefined
                      end
                end
          end
      end
  end.

(** Returns the inode number (0 on failure) and the diagnostics printed. *)
Definition get_inode_by_path (st : fs_state) (canonical_path0 : list ascii)
  : outcome (Z * list event) :=
  let canonical_path := c_str canonical_path0 in
  if list_ascii_eqb canonical_path ["/"%char] then Returns (1, [])
  else
    let path_copy := c_str (firstn 1023 (tl canonical_path)) in
    resolve_components st canonical_path 1 (tokenize path_copy).

(* ------------------------------------------------------------------ *)
(** ** minls.c: [list_single_entry], [list_directory_contents] *)

(** [%9u]: right-aligned in a field of 9. *)
Definition fmt_u9 (x : Z) : string :=
  let s := fmt_u x in
  (String.concat "" (repeat " " (9 - String.length s)) ++ s)%string.

Definition perm_char (m mask : Z) (c : string) : string :=
  if Z.land m mask =? 0 then "-" else c.

Definition get_permissions_string (m : Z) : string :=
  ((if is_dir_mode m then "d" else "-") ++
   perm_char m 256 "r" ++ perm_char m 128 "w" ++ perm_char m 64 "x" ++
   perm_char m 32 "r" ++ perm_char m 16 "w" ++ perm_char m 8 "x" ++
   perm_char m 4 "r" ++ perm_char m 2 "w" ++ perm_char m 1 "x")%string.

Definition string_of_bytes (b : list Z) : string :=
  string_of_list_ascii (map (fun x => ascii_of_nat (Z.to_nat x)) b).

Definition list_single_entry (st : fs_state) (entry_inode_num : Z) (name : string)
  : list event :=
  let '(r, e) := read_inode_d st entry_inode_num in
  e ++ match r with
       | None =>
           [Err ("Error: Could not read inode " ++ fmt_u entry_inode_num ++
                 " for entry " ++ name ++ "." ++ nl)%string]
       | Some ent =>
           [Out (get_permissions_string (mode ent) ++ " " ++ fmt_u9 (size ent) ++ " " ++
                 name ++ nl)%string]
       end.

(** The entry loop of one directory block in list mode. *)
Fixpoint list_block_entries (st : fs_state) (buf : list Z) (js : list Z) : list event :=
  match js with
  | [] => []
  | j :: r =>
      let ent := entry_inode buf j in
      if ent =? 0 then list_block_entries st buf r
      else list_single_entry st ent (string_of_bytes (dir_entry_name (entry_name buf j)))
           ++ list_block_entries st buf r
  end.

Definition read_block_error_msg (disk_block : Z) : string :=
  ("minls: Error reading directory data block " ++ fmt_u disk_block ++ "." ++ nl)%string.

Definition list_step (st : fs_state) (dir_inode : minix_inode_t)
  (s : Z * list event) : (Z * list event) + outcome (list event) :=
  let '(i, evs) := s in
  let bs := blocksize (curr_sb st) in
  if negb (u32 (i * bs) <? size dir_inode) then inr (Returns evs)
  else
    match get_file_blk_d st dir_inode i with
    | Undefined => inr Undefined
    | Diverges => inr Diverges
    | Returns (disk_block, e1) =>
        if disk_block =? 0 then inl (u32 (i + 1), evs ++ e1)
        else if bs =? 0 then inr Undefined
        else
          match read_fs_bytes_d st (disk_block * bs) bs with
          | (None, e2) => inl (u32 (i + 1), evs ++ e1 ++ e2 ++ [Err (read_block_error_msg disk_block)])
          | (Some dir_block_buf, _) =>
              inl (u32 (i + 1), evs ++ e1 ++ list_block_entries st dir_block_buf (list_slots bs))
          end
    end.

(** Returns the status (0 or -1) and the output. *)
Definition list_directory_contents (st : fs_state) (dir_inode_num : Z) (dir_path : string)
  : outcome (Z * list event) :=
  let '(r, e) := read_inode_d st dir_inode_num in
  match r with
  | None =>
      Returns (-1, e ++ [Err ("minls: Failed to read directory inode " ++
                              fmt_u dir_inode_num ++ "." ++ nl)%string])
  | Some dir_inode =>
      let header := e ++ [Out (dir_path ++ ":" ++ nl)%string] in
      if negb (is_dir_mode (mode dir_inode)) then
        Returns (-1, header ++ [Err ("minls: " ++ dir_path ++ " is not a directory." ++ nl)%string])
      else
        match loop_u32 (list_step st dir_inode) (0, header) with
        | Returns evs => Returns (0, evs)
        | Diverges => Diverges
        | Undefined => Undefined
        end
  end.
(* ------------------------------------------------------------------ *)
(** ** Small images to run the model on *)

Definition le16_bytes (x : Z) : list Z := [x mod 256; (x / 256) mod 256].
Definition le32_bytes (x : Z) : list Z := le16_bytes (x mod 65536) ++ le16_bytes (x / 65536).

(** Overwrite the image from byte [off] on. *)
Definition put (off : Z) (b : list Z) (img : list Z) : list Z :=
  firstn (Z.to_nat off) img ++ b ++ skipn (Z.to_nat off + List.length b) img.

Definition superblock_bytes (ninodes_ log_zone_size_ blocksize_ : Z) : list Z :=
  le32_bytes ninodes_ ++ le16_bytes 0 ++ le16_bytes 0 ++ le16_bytes 0 ++
  le16_bytes 5 ++ le16_bytes log_zone_size_ ++ le16_bytes 0 ++
  le32_bytes 4096 ++ le32_bytes 17 ++ le16_bytes 19802 ++ le16_bytes 0 ++
  le16_bytes blocksize_ ++ [0].

(** A 64-byte inode with the given mode, size and direct zones. *)
Definition inode_bytes (mode_ size_ : Z) (zs : list Z) (ind dind : Z) : list Z :=
  le16_bytes mode_ ++ le16_bytes 1 ++ le16_bytes 0 ++ le16_bytes 0 ++
  le32_bytes size_ ++ le32_bytes 0 ++ le32_bytes 0 ++ le32_bytes 0 ++
  flat_map le32_bytes (firstn 7 (zs ++ repeat 0 7)) ++
  le32_bytes ind ++ le32_bytes dind ++ le32_bytes 0.

Definition dirent_bytes (ino : Z) (name : string) : list Z :=
  le32_bytes ino ++ firstn 60 (bytes_of (list_ascii_of_string name) ++ repeat 0 60).

(** A bare filesystem, blocks of 64 bytes, 17 blocks: the root directory
    (inode 1) spans two blocks, the first of which (zone 100) lies past the
    end of the image; its second block (zone 5) holds the entry [a] for the
    regular file inode 2. *)
Definition img1 : list Z :=
  put 1024 (superblock_bytes 3 0 64)
  (put 128 (inode_bytes 16877 128 [100; 5] 0 0)
  (put 192 (inode_bytes 33188 10 [6] 0 0)
  (put 320 (dirent_bytes 2 "a")
  (repeat 0 1088)))).

(** A master boot record: entries given as (type, lFirst). *)
Definition part_entry_bytes (e : Z * Z) : list Z :=
  [128; 0; 0; 0; fst e; 0; 0; 0] ++ le32_bytes (snd e) ++ le32_bytes 1000.

Definition mbr_bytes (entries : list (Z * Z)) : list Z :=
  repeat 0 446 ++ flat_map part_entry_bytes (firstn 4 (entries ++ repeat (0, 0) 4)) ++ [85; 170].

(** A disk whose partition 0 is a MINIX partition starting at sector 0. *)
Definition img_lfirst0 : list Z := mbr_bytes [(129, 0)].

(** A filesystem whose superblock is intact but whose inode table (block 2
    of 1024 bytes) lies past the end of the image. *)
Definition img_truncated : list Z :=
  put 1024 (superblock_bytes 1 0 1024) (repeat 0 1088).

(** As [img1], with two blocks per zone. *)
Definition img2 : list Z :=
  put 1024 (superblock_bytes 3 1 64) (repeat 0 1088).

(* ------------------------------------------------------------------ *)
(** ** The partition fields the spec talks about *)

Definition mbr_signature_ok (mbr : list Z) : Prop :=
  byte_at mbr 510 = 85 /\ byte_at mbr 511 = 170.

Definition part_type (mbr : list Z) (k : Z) : Z :=
  byte_at mbr (PARTITION_TABLE_OFFSET + 16 * k + 4).

Definition part_lFirst (mbr : list Z) (k : Z) : Z :=
  le32 mbr (PARTITION_TABLE_OFFSET + 16 * k + 8).

(** A disk whose primary partition 0 starts at sector 1, where a second
    table names sub-partition 1 at sector 3. *)
Definition img_nested : list Z :=
  mbr_bytes [(129, 1)] ++ mbr_bytes [(0, 0); (129, 3)].

Definition empty_state : fs_state :=
  {| image_fp := []; fs_offset := 0; curr_sb := parse_superblock [];
     zone_size := 0; blks_per_zone := 0; verbose := 0 |}.

Definition state_of (o : outcome (option fs_state)) : fs_state :=
  match o with Returns (Some st) => st | _ => empty_state end.

Definition st1 : fs_state := state_of (init_filesystem img1 (-1) (-1) 0).
Definition st2 : fs_state := state_of (init_filesystem img2 (-1) (-1) 0).

(** [st1] as [minls -v] sets it up. *)
Definition st1_v : fs_state := state_of (init_filesystem img1 (-1) (-1) 1).

(* ------------------------------------------------------------------ *)
(** ** The block mapper as the spec describes it

    [map_block_spec] follows the table of the spec: [None] when one of the
    table reads it performs fails (the spec leaves that case to the next
    paragraph), otherwise [Hole] or [Disk] with the mathematical block
    number. *)

Inductive blk_result : Type :=
| Hole
| Disk (n : Z).

(** How [get_file_blk] reports a result: 0 for a hole. *)
Definition blk_code (r : blk_result) : Z :=
  match r with Hole => 0 | Disk n => n end.

Definition table_slot (st : fs_state) (z i : Z) : option Z :=
  option_map (fun buf => le32 buf (4 * i))
    (read_fs_bytes st (z * zone_size st) (blocksize (curr_sb st))).

Definition resolve_zone (bpz biz zone_num : Z) : blk_result :=
  if zone_num =? 0 then Hole else Disk (zone_num * bpz + biz).

Definition map_block_spec (st : fs_state) (ino : minix_inode_t) (L : Z)
  : option blk_result :=
  let bpz := 2 ^ log_zone_size (curr_sb st) in
  let P := blocksize (curr_sb st) / 4 in
  let z := L / bpz in
  let biz := L mod bpz in
  if z <? 7 then Some (resolve_zone bpz biz (nth (Z.to_nat z) (zone ino) 0))
  else if z <? 7 + P then
    if indirect ino =? 0 then Some Hole
    else option_map (resolve_zone bpz biz) (table_slot st (indirect ino) (z - 7))
  else if z <? 7 + P + P * P then
    if two_indirect ino =? 0 then Some Hole
    else
      match table_slot st (two_indirect ino) ((z - 7 - P) / P) with
      | None => None
      | Some z2 =>
          if z2 =? 0 then Some Hole
          else option_map (resolve_zone bpz biz) (table_slot st z2 ((z - 7 - P) mod P))
      end
  else Some Hole.

(** An inode of [img1]'s geometry using its single-indirect zone 8; the
    table in zone 8 is all zeros except its slot 0, which names zone 9. *)
Definition img1_ind : list Z := put (8 * 64) (le32_bytes 9) img1.
Definition st1_ind : fs_state := state_of (init_filesystem img1_ind (-1) (-1) 0).
Definition ino_ind : minix_inode_t := parse_inode (inode_bytes 33188 1000 [4] 8 0).

(** An inode whose single-indirect zone lies past the end of [img1]. *)
Definition ino_bad_ind : minix_inode_t := parse_inode (inode_bytes 33188 1000 [4] 1000 0).

(** An inode whose first direct zone is [2^31]. *)
Definition ino_big : minix_inode_t := parse_inode (inode_bytes 33188 1000 [2 ^ 31] 0 0).

(** The root directory of [img1]. *)
Definition img1_root : minix_inode_t := parse_inode (sublist 128 64 img1).


(* ------------------------------------------------------------------ *)
(** ** minls.c: [main], after the options are parsed

    [image] is the opened image file and [image_file] its name,
    [src_path] the path argument (["/"] when none is given), [verbose_flag]
    1 with [-v] and 0 otherwise.  The canonical path is never [NULL]
    ([malloc] does not fail here).  [print_verbose_inode] passes [ctime]
    the 8 bytes at the address of each 32-bit time field, read as a
    [time_t]; the text [ctime] makes of a [time_t] (the local time zone
    enters it) is the parameter [ctime_text]. *)

(** [strrchr(s, '/')]: the text after the last ['/'], if any. *)
Fixpoint strrchr_slash (l : list ascii) : option (list ascii) :=
  match l with
  | [] => None
  | c :: r =>
      match strrchr_slash r with
      | Some t => Some t
      | None => if is_slash c then Some r else None
      end
  end.

(** The [time_t] made of the 32-bit field [lo] and the 32 bits after it. *)
Definition time_t_at (lo hi : Z) : Z :=
  let v := u32 lo + 2 ^ 32 * u32 hi in
  if v <? 2 ^ 63 then v else v - 2 ^ 64.

Section Main.

Variable ctime_text : Z -> string.

Definition print_verbose_inode (inode_num : Z) (ino : minix_inode_t) : list event :=
  [Err (nl ++ "File inode #" ++ fmt_u inode_num ++ ":" ++ nl)%string;
   Err ("  mode:      0x" ++ fmt_x_pad 0 (mode ino) ++ " (" ++
        get_permissions_string (mode ino) ++ ")" ++ nl)%string;
   Err ("  links:     " ++ fmt_u (links ino) ++ nl)%string;
   Err ("  uid:      " ++ fmt_u (uid ino) ++ nl)%string;
   Err ("  gid:      " ++ fmt_u (gid ino) ++ nl)%string;
   Err ("  size:      " ++ fmt_u (size ino) ++ nl)%string;
   Err ("  atime:     " ++ fmt_u (u32 (atime ino)) ++ " ~~~" ++
        ctime_text (time_t_at (atime ino) (mtime ino)))%string;
   Err ("  mtime:     " ++ fmt_u (u32 (mtime ino)) ++ " ~~~" ++
        ctime_text (time_t_at (mtime ino) (ctime ino)))%string;
   Err ("  ctime:     " ++ fmt_u (u32 (ctime ino)) ++ " ~~~" ++
        ctime_text (time_t_at (ctime ino) (nth 0 (zone ino) 0)))%string;
   Err ("  Direct zones:" ++ nl)%string] ++
  map (fun k => Err ("   zone[" ++ fmt_ld k ++ "] = " ++
                     fmt_u (nth (Z.to_nat k) (zone ino) 0) ++ nl)%string)
      [0; 1; 2; 3; 4; 5; 6] ++
  [Err ("  indir:    " ++ fmt_u (indirect ino) ++ nl)%string;
   Err ("  two_indir:  " ++ fmt_u (two_indirect ino) ++ nl)%string].

(** The exit status and the output. *)
Definition minls_main (image : list Z) (image_file : string) (p_num s_num verbose_flag : Z)
  (src_path : list ascii) : outcome (Z * list event) :=
  match init_filesystem_d image image_file p_num s_num verbose_flag with
  | Undefined => Undefined
  | Diverges => Diverges
  | Returns (None, e) => Returns (1, e)
  | Returns (Some st, e) =>
      let canonical_src_path := canonicalize_path_l src_path in
      let cs := string_of_list_ascii canonical_src_path in
      match get_inode_by_path st canonical_src_path with
      | Diverges => Diverges
      | Undefined => Undefined
      | Returns (src_inode_num, e2) =>
          if src_inode_num =? 0 then
            Returns (1, e ++ e2 ++ [Err ("minls: Can't find " ++ cs ++ nl)%string])
          else
            let '(r, e3) := read_inode_d st src_inode_num in
            match r with
            | None =>
                Returns (1, e ++ e2 ++ e3 ++ [Err ("minls: Failed to read inode " ++
                                                   fmt_u src_inode_num ++ "." ++ nl)%string])
            | Some src_inode =>
                let e4 := if verbose_flag =? 0 then []
                          else print_verbose_inode src_inode_num src_inode in
                if is_dir_mode (mode src_inode) then
                  match list_directory_contents st src_inode_num cs with
                  | Returns (status, e5) =>
                      Returns (if status =? 0 then 0 else 1, e ++ e2 ++ e3 ++ e4 ++ e5)
                  | Diverges => Diverges
                  | Undefined => Undefined
                  end
                else
                  let filename :=
                    if list_ascii_eqb canonical_src_path ["/"%char] then ["."%char]
                    else match strrchr_slash canonical_src_path with
                         | Some t => t
                         | None => canonical_src_path
                         end in
                  Returns (0, e ++ e2 ++ e3 ++ e4 ++
                              list_single_entry st src_inode_num (string_of_list_ascii filename))
            end
      end
  end.

End Main.

(* ------------------------------------------------------------------ *)
(** ** Reading back what the program prints *)

(** The type flag and the nine permission bits a 10-character permission
    string shows. *)
Definition decode_perm (s : string) : bool * Z :=
  match list_ascii_of_string s with
  | c0 :: cs =>
      (Ascii.eqb c0 "d"%char,
       fold_right Z.add 0
         (map (fun cm => if Ascii.eqb (fst cm) "-"%char then 0 else snd cm)
              (combine cs [256; 128; 64; 32; 16; 8; 4; 2; 1])))
  | [] => (false, 0)
  end.

(** No ['/'] directly followed by another ['/']. *)
Fixpoint no_double_slash (l : list ascii) : bool :=
  match l with
  | c :: ((d :: _) as r) => negb (is_slash c && is_slash d) && no_double_slash r
  | _ => true
  end.

(** A directory of [img1]'s geometry whose size is [2^32 - 1] and which has
    no blocks, stored as the root. *)
Definition img_huge : list Z := put 128 (inode_bytes 16877 (2 ^ 32 - 1) [] 0 0) img1.
Definition st_huge : fs_state := state_of (init_filesystem img_huge (-1) (-1) 0).
Definition huge_root : minix_inode_t := parse_inode (inode_bytes 16877 (2 ^ 32 - 1) [] 0 0).

(** The messages [read_fs_bytes] may print: lines starting with
    ["read_fs_bytes: "], and none unless the state is verbose. *)
Definition fs_diag (st : fs_state) (evs : list event) : Prop :=
  Forall (fun ev => exists m, ev = Err ("read_fs_bytes: " ++ m)%string) evs /\
  (verbose st = 0 -> evs = []).
(* ================================================================== *)
(** * Properties *)

(** Closes a comparison of concrete integers by evaluation. *)
Ltac zcheck := repeat match goal with |- _ /\ _ => split end; vm_compute; first [reflexivity | let Hc := fresh in intro Hc; discriminate Hc].

(* ------------------------------------------------------------------ *)
(** ** The two directory-slot loops *)

Lemma for_indices_ext (fuel : nat) (c1 c2 : Z -> bool) (j : Z) :
  (forall k, j <= k < j + Z.of_nat fuel -> c1 k = c2 k) ->
  for_indices fuel c1 j = for_indices fuel c2 j.
Proof.
  revert j; induction fuel as [|f IH]; intros j Hc; simpl; [reflexivity|].
  rewrite (Hc j) by lia.
  destruct (c2 j); [|reflexivity].
  f_equal; apply IH; intros k Hk; apply Hc; lia.
Qed.

(** C9: for a block size that is a positive multiple of 64, the list-mode
    bound [j < blocksize / 64] and the resolve-mode bound [j * 64 < blocksize]
    agree for every slot index [j]; the conditions as the code computes them
    (32-bit product) agree on every index the loops can reach, and the two
    loops visit the same slots. *)
Theorem dir_slot_bounds_agree (bs : Z) :
  0 < bs < 2 ^ 16 -> bs mod DIR_ENTRY_SIZE = 0 ->
  (forall j, 0 <= j -> (j < bs / DIR_ENTRY_SIZE <-> j * DIR_ENTRY_SIZE < bs)) /\
  (forall j, 0 <= j < 2 ^ 26 -> list_slot_cond bs j = resolve_slot_cond bs j) /\
  list_slots bs = resolve_slots bs.
Proof.
  unfold DIR_ENTRY_SIZE; intros Hbs Hm.
  assert (Hmath : forall j, 0 <= j -> (j < bs / 64 <-> j * 64 < bs)).
  { intros j Hj. pose proof (Z.div_mod bs 64 ltac:(lia)) as Hd.
    rewrite Hm, Z.add_0_r in Hd. nia. }
  assert (Hcond : forall j, 0 <= j < 2 ^ 26 -> list_slot_cond bs j = resolve_slot_cond bs j).
  { intros j Hj. unfold list_slot_cond, resolve_slot_cond, u32, DIR_ENTRY_SIZE.
    rewrite Z.mod_small by lia.
    specialize (Hmath j ltac:(lia)).
    destruct (j <? bs / 64) eqn:E1; destruct (j * 64 <? bs) eqn:E2; try reflexivity;
      rewrite ?Z.ltb_lt, ?Z.ltb_ge in *; lia. }
  split; [exact Hmath|]. split; [exact Hcond|].
  unfold list_slots, resolve_slots, slot_fuel.
  apply for_indices_ext. intros k Hk. apply Hcond. lia.
Qed.

Lemma dir_slot_bounds_agree_witness :
  (0 < 1024 < 2 ^ 16 /\ 1024 mod DIR_ENTRY_SIZE = 0) /\
  ((forall j, 0 <= j -> (j < 1024 / DIR_ENTRY_SIZE <-> j * DIR_ENTRY_SIZE < 1024)) /\
   (forall j, 0 <= j < 2 ^ 26 -> list_slot_cond 1024 j = resolve_slot_cond 1024 j) /\
   list_slots 1024 = resolve_slots 1024).
Proof.
  split; [split; [lia | reflexivity]|].
  apply (dir_slot_bounds_agree 1024); [lia | reflexivity].
Defined.

(* ------------------------------------------------------------------ *)
(** ** Name matching *)

Lemma strncmp_eq_prefix (c name : list Z) :
  Forall (fun b => b <> 0) c ->
  strncmp_eq c name (List.length c) = true <-> firstn (List.length c) name = c.
Proof.
  revert name; induction c as [|x c IH]; intros name Hc; simpl.
  - split; reflexivity.
  - inversion Hc as [|? ? Hx Hc']; subst.
    destruct name as [|y name]; simpl.
    + replace (x =? 0) with false by (symmetry; apply Z.eqb_neq; exact Hx).
      split; discriminate.
    + destruct (Z.eqb_spec x y) as [<-|Hxy]; simpl.
      * replace (x =? 0) with false by (symmetry; apply Z.eqb_neq; exact Hx).
        rewrite IH by exact Hc'. split; [intros ->; reflexivity|].
        intros H; injection H; auto.
      * split; [discriminate|]. intros H; injection H; intros; congruence.
Qed.

Lemma take_until_nul_spec (c l : list Z) :
  Forall (fun b => b <> 0) c ->
  take_until_nul l = c <-> firstn (List.length c) l = c /\ nth (List.length c) l 0 = 0.
Proof.
  revert l; induction c as [|x c IH]; intros l Hc.
  - destruct l as [|b l]; simpl; [tauto|].
    destruct (Z.eqb_spec b 0); split; intuition congruence.
  - inversion Hc as [|? ? Hx Hc']; subst.
    destruct l as [|b l]; simpl.
    + split; [discriminate|]. intros [H _]; discriminate.
    + destruct (Z.eqb_spec b 0) as [->|Hb].
      * split; [discriminate|]. intros [H _]; injection H; intros; congruence.
      * split.
        -- intros H; injection H; intros H1 <-.
           apply (IH l Hc') in H1 as [A B]. rewrite A. auto.
        -- intros [H1 H2]; injection H1; intros H3 <-.
           f_equal; apply IH; auto.
Qed.

(** C5: a path component [c] (a C string: no NUL byte) matches the 60 name
    bytes of an entry exactly when [c] equals the entry's name, the bytes
    before the first NUL (all 60 if none); the query [a] does not match the
    entry [ab]. *)
Theorem name_match_exact (c name : list Z) :
  List.length name = 60%nat -> Forall (fun b => b <> 0) c ->
  (name_matches c name = true <-> c = dir_entry_name name) /\
  name_matches [97] ([97; 98] ++ repeat 0 58) = false.
Proof.
  intros Hlen Hc. split; [|reflexivity].
  unfold name_matches, dir_entry_name.
  assert (Esym : c = take_until_nul (firstn 60 name) <-> take_until_nul (firstn 60 name) = c)
    by (split; intros; symmetry; assumption).
  rewrite Esym, (take_until_nul_spec c _ Hc).
  destruct (60 <? Z.of_nat (List.length c)) eqn:E60.
  - apply Z.ltb_lt in E60. split; [discriminate|].
    intros [H _]. apply (f_equal (@List.length Z)) in H.
    rewrite length_firstn, length_firstn, Hlen in H. lia.
  - apply Z.ltb_ge in E60.
    rewrite firstn_firstn, Nat.min_l by lia.
    destruct (strncmp_eq c name (List.length c)) eqn:Es; cbn [negb].
    + apply strncmp_eq_prefix in Es; [|exact Hc].
      unfold byte_at. rewrite Nat2Z.id.
      destruct (Nat.lt_ge_cases (List.length c) 60) as [Hl|Hl].
      * rewrite nth_firstn. replace (Nat.ltb (List.length c) 60) with true
          by (symmetry; apply Nat.ltb_lt; exact Hl).
        replace (Z.of_nat (List.length c) <? 60) with true by (symmetry; apply Z.ltb_lt; lia).
        simpl. destruct (Z.eqb_spec (nth (List.length c) name 0) 0); simpl; intuition congruence.
      * replace (Z.of_nat (List.length c) <? 60) with false by (symmetry; apply Z.ltb_ge; lia).
        cbn [andb]. rewrite nth_overflow by (rewrite length_firstn; lia). tauto.
    + split; [discriminate|]. intros [H _].
      assert (strncmp_eq c name (List.length c) = true) by (apply strncmp_eq_prefix; auto).
      congruence.
Qed.

Lemma name_match_exact_witness :
  (List.length (repeat 0 60) = 60%nat /\ Forall (fun b => b <> 0) [97]) /\
  ((name_matches [97] (repeat 0 60) = true <-> [97] = dir_entry_name (repeat 0 60)) /\
   name_matches [97] ([97; 98] ++ repeat 0 58) = false).
Proof.
  split; [split; [reflexivity | repeat constructor; discriminate]|].
  apply name_match_exact; [reflexivity | repeat constructor; discriminate].
Defined.

(* ------------------------------------------------------------------ *)
(** ** [strtok_r] and [canonicalize_path] *)

Definition no_slash (t : list ascii) : Prop := Forall (fun c => is_slash c = false) t.

Lemma skip_delims_length (l : list ascii) : (List.length (skip_delims l) <= List.length l)%nat.
Proof.
  induction l as [|c l IH]; simpl; [lia|]. destruct (is_slash c); simpl; lia.
Qed.

Lemma skip_delims_incl (l : list ascii) (x : ascii) : In x (skip_delims l) -> In x l.
Proof.
  induction l as [|c l IH]; simpl; [tauto|]. destruct (is_slash c); simpl; tauto.
Qed.

Lemma skip_delims_head (l : list ascii) (c : ascii) (r : list ascii) :
  skip_delims l = c :: r -> is_slash c = false.
Proof.
  induction l as [|d l IH]; simpl; [discriminate|].
  destruct (is_slash d) eqn:E; [exact IH|]. intros H; injection H; intros _ <-; exact E.
Qed.

Lemma take_token_props (l : list ascii) :
  let '(t, r) := take_token l in
  no_slash t /\ (List.length t + List.length r <= List.length l)%nat /\
  (forall x, In x t -> In x l) /\ (forall x, In x r -> In x l) /\
  (l <> [] -> (List.length r < List.length l)%nat).
Proof.
  induction l as [|c l IH]; simpl.
  - repeat split; [constructor | lia | tauto | tauto | congruence].
  - destruct (is_slash c) eqn:E.
    + repeat split; [constructor | simpl; lia | simpl; tauto | simpl; tauto | intros; lia].
    + destruct (take_token l) as [t r]. destruct IH as (H1 & H2 & H3 & H4 & _).
      repeat split; [constructor; assumption | simpl; lia | | | intros; simpl; lia].
      * intros x [->|Hx]; [left; reflexivity | right; auto].
      * intros x Hx; right; auto.
Qed.

Lemma strtok_r_props (l t r : list ascii) :
  strtok_r l = Some (t, r) ->
  t <> [] /\ no_slash t /\ (List.length r < List.length l)%nat /\
  (forall x, In x t -> In x l) /\ (forall x, In x r -> In x l).
Proof.
  unfold strtok_r. destruct (skip_delims l) as [|c l'] eqn:Es; [discriminate|].
  intros H; injection H; clear H; intros Ht.
  change (take_token (c :: l') = (t, r)) in Ht.
  pose proof (skip_delims_head _ _ _ Es) as Hc.
  pose proof (skip_delims_length l) as Hlen. rewrite Es in Hlen.
  pose proof (take_token_props (c :: l')) as Hp. rewrite Ht in Hp.
  destruct Hp as (H1 & H2 & H3 & H4 & H5).
  specialize (H5 ltac:(discriminate)).
  assert (Hne : t <> []).
  { simpl in Ht. rewrite Hc in Ht. destruct (take_token l') as [t' r'].
    injection Ht; intros _ <-. discriminate. }
  repeat split; [exact Hne | exact H1 | lia | |];
    intros x Hx; apply skip_delims_incl; rewrite Es; auto.
Qed.

Lemma strtok_loop_props (n : nat) (l t r : list ascii) :
  In (t, r) (strtok_loop n l) -> t <> [] /\ no_slash t /\ (forall x, In x t -> In x l).
Proof.
  revert l; induction n as [|n IH]; intros l; simpl; [tauto|].
  destruct (strtok_r l) as [[t' r']|] eqn:E; [|simpl; tauto].
  apply strtok_r_props in E as (H1 & H2 & H3 & H4 & H5).
  intros [Heq|Hin].
  - injection Heq; intros _ <-. auto.
  - destruct (IH r' Hin) as (A & B & C). repeat split; auto.
Qed.

Lemma strtok_loop_slash (n : nat) (l : list ascii) :
  strtok_loop n ("/"%char :: l) = strtok_loop n l.
Proof. destruct n; reflexivity. Qed.

Lemma skip_delims_noslash (t l : list ascii) :
  t <> [] -> no_slash t -> skip_delims (t ++ l) = t ++ l.
Proof.
  destruct t as [|c t]; [congruence|]. intros _ H. inversion H; subst. simpl.
  rewrite H2. reflexivity.
Qed.

Lemma take_token_noslash (t l : list ascii) :
  no_slash t -> take_token (t ++ l) = (t ++ fst (take_token l), snd (take_token l)).
Proof.
  induction t as [|c t IH]; intros H; simpl.
  - destruct (take_token l); reflexivity.
  - inversion H; subst. rewrite H2, IH by assumption. reflexivity.
Qed.

Lemma strtok_r_token (t l : list ascii) :
  t <> [] -> no_slash t ->
  strtok_r (t ++ l) = Some (t ++ fst (take_token l), snd (take_token l)).
Proof.
  intros Hne Hns. unfold strtok_r. rewrite skip_delims_noslash by assumption.
  rewrite <- take_token_noslash by assumption.
  destruct t as [|c t]; [congruence|]. reflexivity.
Qed.

Lemma join_slash_nil (ts : list (list ascii)) :
  Forall (fun t => t <> []) ts -> join_slash ts = [] -> ts = [].
Proof.
  destruct ts as [|t r]; [reflexivity|]. intros H. inversion H; subst.
  simpl. destruct t; [congruence|]. discriminate.
Qed.

Lemma strtok_join (ts : list (list ascii)) (n : nat) :
  Forall (fun t => t <> [] /\ no_slash t) ts ->
  (List.length (join_slash ts) <= n)%nat ->
  map fst (strtok_loop n (join_slash ts)) = ts.
Proof.
  revert n; induction ts as [|t r IH]; intros n Hts Hn.
  - destruct n; reflexivity.
  - inversion Hts as [|? ? [Hne Hns] Hr]; subst.
    destruct r as [|t' r'].
    + change (join_slash [t]) with (t ++ []) in *. rewrite app_nil_r in *.
      destruct n as [|n]; [destruct t; simpl in Hn; [congruence | lia]|].
      simpl strtok_loop. rewrite <- (app_nil_r t), strtok_r_token by assumption.
      simpl. rewrite !app_nil_r. destruct n; reflexivity.
    + change (join_slash (t :: t' :: r')) with (t ++ "/"%char :: join_slash (t' :: r')) in *.
      set (J := join_slash (t' :: r')) in *.
      rewrite length_app in Hn. simpl in Hn.
      destruct n as [|n]; [destruct t; simpl in Hn; [congruence | lia]|].
      simpl strtok_loop. rewrite strtok_r_token by assumption.
      simpl. rewrite app_nil_r. f_equal.
      apply IH; [exact Hr|]. destruct t; [congruence|]. simpl in Hn. lia.
Qed.

Definition no_nul (l : list ascii) : Prop := forall x, In x l -> Ascii.eqb x "000"%char = false.

Lemma c_str_no_nul (l : list ascii) : no_nul (c_str l).
Proof.
  induction l as [|c l IH]; intros x; simpl; [tauto|].
  destruct (Ascii.eqb c "000"%char) eqn:E; simpl; [tauto|].
  intros [<-|Hx]; [exact E | exact (IH x Hx)].
Qed.

Lemma c_str_id (l : list ascii) : no_nul l -> c_str l = l.
Proof.
  induction l as [|c l IH]; intros H; simpl; [reflexivity|].
  rewrite (H c (or_introl eq_refl)). f_equal. apply IH. intros x Hx. apply H. right; exact Hx.
Qed.

Lemma join_slash_chars (ts : list (list ascii)) (x : ascii) :
  In x (join_slash ts) -> x = "/"%char \/ exists t, In t ts /\ In x t.
Proof.
  induction ts as [|t r IH]; simpl; [tauto|].
  intros Hx. apply in_app_or in Hx as [Hx|Hx].
  - right. exists t. auto.
  - destruct r as [|t' r']; [simpl in Hx; tauto|].
    destruct Hx as [<-|Hx]; [left; reflexivity|].
    destruct (IH Hx) as [E|(t0 & Ht0 & Hx0)]; [left; exact E|].
    right. exists t0. auto.
Qed.

Lemma last_cons_ne {A : Type} (a : A) (l : list A) (d : A) :
  l <> [] -> last (a :: l) d = last l d.
Proof. destruct l; [congruence | reflexivity]. Qed.

Lemma last_app_ne {A : Type} (l1 l2 : list A) (d : A) :
  l2 <> [] -> last (l1 ++ l2) d = last l2 d.
Proof.
  intros H. induction l1 as [|a l1 IH]; [reflexivity|].
  simpl app. rewrite last_cons_ne; [exact IH|]. destruct l1, l2; simpl; congruence.
Qed.

Lemma last_in {A : Type} (l : list A) (d : A) : l <> [] -> In (last l d) l.
Proof.
  induction l as [|a l IH]; [congruence|]. intros _.
  destruct l as [|b l]; [left; reflexivity|].
  rewrite last_cons_ne by discriminate. right. apply IH. discriminate.
Qed.

Lemma join_slash_last (ts : list (list ascii)) (d : ascii) :
  ts <> [] -> Forall (fun t => t <> [] /\ no_slash t) ts ->
  is_slash (last (join_slash ts) d) = false.
Proof.
  induction ts as [|t r IH]; [congruence|]. intros _ H.
  inversion H as [|? ? [Hne Hns] Hr]; subst.
  destruct r as [|t' r'].
  - simpl. rewrite app_nil_r.
    unfold no_slash in Hns. rewrite Forall_forall in Hns. apply Hns, last_in, Hne.
  - simpl join_slash. fold (join_slash (t' :: r')).
    rewrite last_app_ne by discriminate.
    assert (Hj : join_slash (t' :: r') <> []).
    { intros E. apply join_slash_nil in E; [discriminate|].
      eapply Forall_impl; [|exact Hr]. intros a [A _]; exact A. }
    rewrite last_cons_ne by exact Hj. apply IH; [discriminate | exact Hr].
Qed.

Lemma tokens_wf (l : list ascii) :
  Forall (fun t => t <> [] /\ no_slash t) (map fst (tokenize l)) /\
  (forall t x, In t (map fst (tokenize l)) -> In x t -> In x l).
Proof.
  split.
  - apply Forall_forall. intros t Ht. apply in_map_iff in Ht as ([t' r] & <- & Hin).
    apply strtok_loop_props in Hin as (A & B & _). auto.
  - intros t x Ht Hx. apply in_map_iff in Ht as ([t' r] & <- & Hin).
    apply strtok_loop_props in Hin as (_ & _ & C). auto.
Qed.

Lemma list_ascii_eqb_slash (l : list ascii) :
  list_ascii_eqb ("/"%char :: l) ["/"%char] = true -> l = [].
Proof.
  unfold list_ascii_eqb. intros H. apply String.eqb_eq in H.
  simpl in H. injection H. destruct l; [reflexivity | discriminate].
Qed.

(** The result of [canonicalize_path]: a slash, then the tokens joined by
    single slashes. *)
Lemma canonicalize_path_l_form (p : list ascii) :
  canonicalize_path_l p = "/"%char :: join_slash (map fst (tokenize (c_str p))).
Proof.
  unfold canonicalize_path_l.
  destruct (c_str p) as [|c r] eqn:EP; [reflexivity|].
  set (J := join_slash (map fst (tokenize (c :: r)))).
  destruct (list_ascii_eqb ("/"%char :: J) ["/"%char]) eqn:Eq; [reflexivity|].
  assert (HJ : J <> []) by (intros E; rewrite E in Eq; discriminate).
  assert (Hts : map fst (tokenize (c :: r)) <> []) by (intros E; apply HJ; unfold J; rewrite E; reflexivity).
  rewrite last_cons_ne by exact HJ.
  unfold J. rewrite join_slash_last; [| exact Hts | apply tokens_wf].
  rewrite andb_false_r. reflexivity.
Qed.

Lemma canonicalize_path_l_idem (p : list ascii) :
  canonicalize_path_l (canonicalize_path_l p) = canonicalize_path_l p.
Proof.
  rewrite (canonicalize_path_l_form p).
  set (ts := map fst (tokenize (c_str p))).
  destruct (tokens_wf (c_str p)) as [Hwf Hin]. fold ts in Hwf, Hin.
  rewrite canonicalize_path_l_form. f_equal.
  rewrite c_str_id.
  - unfold tokenize. rewrite strtok_loop_slash.
    f_equal. apply strtok_join; [exact Hwf | simpl; lia].
  - intros x [<-|Hx]; [reflexivity|].
    apply join_slash_chars in Hx as [->|(t & Ht & Hx)]; [reflexivity|].
    apply (c_str_no_nul p). exact (Hin t x Ht Hx).
Qed.

(** C6: canonicalization is idempotent and maps [""], ["/"], ["//"] and
    ["///a//b/"] to ["/"], ["/"], ["/"] and ["/a/b"]. *)
Theorem canonicalize_path_idempotent :
  (forall p, canonicalize_path (canonicalize_path p) = canonicalize_path p) /\
  canonicalize_path "" = "/"%string /\
  canonicalize_path "/" = "/"%string /\
  canonicalize_path "//" = "/"%string /\
  canonicalize_path "///a//b/" = "/a/b"%string.
Proof.
  split; [|repeat split; reflexivity].
  intros p. unfold canonicalize_path at 1 2.
  rewrite list_ascii_of_string_of_list_ascii, canonicalize_path_l_idem. reflexivity.
Qed.

(* ------------------------------------------------------------------ *)
(** ** Partition tables *)

Lemma read_at_neg (image : list Z) (abs n : Z) : abs < 0 -> read_at image abs n = None.
Proof. intros H. unfold read_at. replace (abs <? 0) with true by (symmetry; apply Z.ltb_lt; lia). reflexivity. Qed.

Lemma get_partition_start_sector (image : list Z) (k table_addr : Z) (mbr : list Z) :
  read_at image (table_addr - PARTITION_TABLE_OFFSET) SECTOR_SIZE = Some mbr ->
  get_partition_start image k table_addr =
  if (byte_at mbr 510 =? 85) && (byte_at mbr 511 =? 170) &&
     negb ((k <? 0) || (4 <=? k)) && (part_type mbr k =? 129)
  then part_lFirst mbr k else 0.
Proof.
  intros H. unfold get_partition_start, get_partition_start_d, read_mbr_and_check_magic_d.
  cbv zeta.
  destruct (Z.ltb_spec (table_addr - PARTITION_TABLE_OFFSET) 0) as [Hn|Hn].
  { rewrite read_at_neg in H by exact Hn. discriminate. }
  rewrite H. unfold part_type, part_lFirst.
  destruct ((byte_at mbr 510 =? 85) && (byte_at mbr 511 =? 170)); [|reflexivity].
  destruct ((k <? 0) || (4 <=? k)); [reflexivity|]. simpl.
  destruct (byte_at mbr _ =? 129); reflexivity.
Qed.

Lemma sector_checks_fail (mbr : list Z) (k : Z) :
  (~ mbr_signature_ok mbr \/ ~ (0 <= k < 4) \/ part_type mbr k <> 129) ->
  ((byte_at mbr 510 =? 85) && (byte_at mbr 511 =? 170) &&
   negb ((k <? 0) || (4 <=? k)) && (part_type mbr k =? 129)) = false.
Proof.
  unfold mbr_signature_ok. intros H.
  destruct (Z.eqb_spec (byte_at mbr 510) 85), (Z.eqb_spec (byte_at mbr 511) 170),
    (Z.ltb_spec k 0), (Z.leb_spec 4 k), (Z.eqb_spec (part_type mbr k) 129);
    simpl; try reflexivity; exfalso; intuition lia.
Qed.

Lemma sector_checks_pass (mbr : list Z) (k : Z) :
  mbr_signature_ok mbr -> 0 <= k < 4 -> part_type mbr k = 129 ->
  ((byte_at mbr 510 =? 85) && (byte_at mbr 511 =? 170) &&
   negb ((k <? 0) || (4 <=? k)) && (part_type mbr k =? 129)) = true.
Proof.
  unfold mbr_signature_ok. intros [H1 H2] Hk Ht. rewrite H1, H2, Ht.
  destruct (Z.ltb_spec k 0), (Z.leb_spec 4 k); simpl; try reflexivity; lia.
Qed.

Lemma init_filesystem_offset (image : list Z) (p s v : Z) (st : fs_state) :
  init_filesystem image p s v = Returns (Some st) -> init_fs_offset image p s = Some (fs_offset st).
Proof.
  unfold init_filesystem, init_filesystem_d, init_fs_offset.
  destruct (init_fs_offset_d image p s) as [[off|] e]; simpl; [|discriminate].
  destruct (read_fs_bytes_d _ _ _) as [[b|] e1]; simpl; [|discriminate].
  destruct (negb _); [discriminate|]. destruct (_ || _); [discriminate|].
  intros H; injection H; intros <-; reflexivity.
Qed.

(** C10: a partition entry that passes every check (signature [0x55AA],
    number in 0..3, type [0x81]) but whose [lFirst] is 0 makes
    initialization fail, since [get_partition_start] reports every failure
    as sector 0. *)
Theorem partition_lfirst_zero_fails (image : list Z) (p s v : Z) (mbr : list Z) :
  p <> -1 -> read_at image 0 SECTOR_SIZE = Some mbr ->
  mbr_signature_ok mbr -> 0 <= p < 4 -> part_type mbr p = 129 -> part_lFirst mbr p = 0 ->
  init_fs_offset image p s = None /\ init_filesystem image p s v = Returns None.
Proof.
  intros Hp Hr Hsig Hk Ht Hl.
  assert (E : init_fs_offset image p s = None).
  { unfold init_fs_offset, init_fs_offset_d.
    replace (p =? -1) with false by (symmetry; apply Z.eqb_neq; exact Hp).
    pose proof (get_partition_start_sector image p PARTITION_TABLE_OFFSET mbr Hr) as G.
    rewrite sector_checks_pass in G by assumption. rewrite Hl in G.
    unfold get_partition_start in G.
    destruct (get_partition_start_d image p PARTITION_TABLE_OFFSET) as [v1 e1].
    simpl in G. subst v1. reflexivity. }
  split; [exact E|]. unfold init_filesystem, init_filesystem_d. unfold init_fs_offset in E.
  destruct (init_fs_offset_d image p s) as [o e]. simpl in E. subst o. reflexivity.
Qed.

Lemma partition_lfirst_zero_fails_witness :
  (0 <> -1 /\ read_at img_lfirst0 0 SECTOR_SIZE = Some img_lfirst0 /\
   mbr_signature_ok img_lfirst0 /\ 0 <= 0 < 4 /\ part_type img_lfirst0 0 = 129 /\
   part_lFirst img_lfirst0 0 = 0) /\
  (init_fs_offset img_lfirst0 0 (-1) = None /\ init_filesystem img_lfirst0 0 (-1) 1 = Returns None).
Proof.
  split.
  - repeat split; try lia; vm_compute; reflexivity.
  - apply (partition_lfirst_zero_fails img_lfirst0 0 (-1) 1 img_lfirst0); try lia;
      try (vm_compute; reflexivity); split; vm_compute; reflexivity.
Defined.

(** C3: on a disk whose partition 0 has the signature [0x55AA], type
    [0x81] and [lFirst] 0, the location the spec gives is offset [0 * 512],
    but initialization fails, and it prints nothing, with or without
    [-v]. *)
Lemma partition_location_counterexample :
  read_at img_lfirst0 0 SECTOR_SIZE = Some img_lfirst0 /\
  mbr_signature_ok img_lfirst0 /\ part_type img_lfirst0 0 = 129 /\
  part_lFirst img_lfirst0 0 * SECTOR_SIZE = 0 /\
  init_fs_offset img_lfirst0 0 (-1) <> Some (part_lFirst img_lfirst0 0 * SECTOR_SIZE) /\
  init_filesystem_d img_lfirst0 "disk.img" 0 (-1) 0 = Returns (None, []) /\
  init_filesystem_d img_lfirst0 "disk.img" 0 (-1) 1 = Returns (None, []).
Proof.
  repeat split; vm_compute; try reflexivity. discriminate.
Qed.

(** C3 (what the code does): for a requested primary partition [p] (not
    [-1]) and the sector at offset 0, location fails when bytes 510/511 are
    not [0x55]/[0xAA], when [p] is not in 0..3, when the entry's type is not
    [0x81], or when its [lFirst] is 0; otherwise the base offset is
    [lFirst * 512], and a requested sub-partition repeats the checks on the
    sector at that offset and gives [sub.lFirst * 512].  [init_filesystem]
    keeps that offset. *)
Theorem partition_location (image : list Z) (p s : Z) (mbr : list Z) :
  p <> -1 -> read_at image 0 SECTOR_SIZE = Some mbr ->
  (forall v st, init_filesystem image p s v = Returns (Some st) ->
     init_fs_offset image p s = Some (fs_offset st)) /\
  (~ mbr_signature_ok mbr -> init_fs_offset image p s = None) /\
  (~ (0 <= p < 4) -> init_fs_offset image p s = None) /\
  (part_type mbr p <> 129 -> init_fs_offset image p s = None) /\
  (part_lFirst mbr p = 0 -> init_fs_offset image p s = None) /\
  (mbr_signature_ok mbr -> 0 <= p < 4 -> part_type mbr p = 129 -> part_lFirst mbr p <> 0 ->
   (s = -1 -> init_fs_offset image p s = Some (part_lFirst mbr p * SECTOR_SIZE)) /\
   (s <> -1 -> forall sub,
      read_at image (part_lFirst mbr p * SECTOR_SIZE) SECTOR_SIZE = Some sub ->
      (~ mbr_signature_ok sub -> init_fs_offset image p s = None) /\
      (~ (0 <= s < 4) -> init_fs_offset image p s = None) /\
      (part_type sub s <> 129 -> init_fs_offset image p s = None) /\
      (part_lFirst sub s = 0 -> init_fs_offset image p s = None) /\
      (mbr_signature_ok sub -> 0 <= s < 4 -> part_type sub s = 129 -> part_lFirst sub s <> 0 ->
       init_fs_offset image p s = Some (part_lFirst sub s * SECTOR_SIZE)))).
Proof.
  intros Hp Hr.
  assert (Hoff : init_fs_offset image p s =
    if get_partition_start image p PARTITION_TABLE_OFFSET =? 0 then None
    else if s =? -1 then Some (get_partition_start image p PARTITION_TABLE_OFFSET * SECTOR_SIZE)
    else let s_start := get_partition_start image s
           (get_partition_start image p PARTITION_TABLE_OFFSET * SECTOR_SIZE + PARTITION_TABLE_OFFSET) in
         if s_start =? 0 then None else Some (s_start * SECTOR_SIZE)).
  { unfold init_fs_offset, init_fs_offset_d.
    replace (p =? -1) with false by (symmetry; apply Z.eqb_neq; exact Hp).
    unfold get_partition_start.
    destruct (get_partition_start_d image p PARTITION_TABLE_OFFSET) as [v1 e1]. cbn [fst].
    destruct (v1 =? 0); [reflexivity|]. destruct (s =? -1); [reflexivity|].
    destruct (get_partition_start_d image s _) as [v2 e2]. cbn [fst].
    destruct (v2 =? 0); reflexivity. }
  split.
  { intros v st Hst. exact (init_filesystem_offset image p s v st Hst). }
  rewrite Hoff. rewrite (get_partition_start_sector image p PARTITION_TABLE_OFFSET mbr) by exact Hr.
  split; [intros H; rewrite sector_checks_fail by tauto; reflexivity|].
  split; [intros H; rewrite sector_checks_fail by tauto; reflexivity|].
  split; [intros H; rewrite sector_checks_fail by tauto; reflexivity|].
  split; [intros H; destruct (_ && _ && _ && _); rewrite ?H; reflexivity|].
  intros Hsig Hk Ht Hl.
  rewrite sector_checks_pass by assumption.
  replace (part_lFirst mbr p =? 0) with false by (symmetry; apply Z.eqb_neq; exact Hl).
  split; [intros ->; reflexivity|].
  intros Hs sub Hsub.
  replace (s =? -1) with false by (symmetry; apply Z.eqb_neq; exact Hs).
  assert (Hsec : read_at image (part_lFirst mbr p * SECTOR_SIZE + PARTITION_TABLE_OFFSET
                                - PARTITION_TABLE_OFFSET) SECTOR_SIZE = Some sub)
    by (rewrite Z.add_simpl_r; exact Hsub).
  cbv zeta. rewrite (get_partition_start_sector image s _ sub Hsec).
  split; [intros H; rewrite sector_checks_fail by tauto; reflexivity|].
  split; [intros H; rewrite sector_checks_fail by tauto; reflexivity|].
  split; [intros H; rewrite sector_checks_fail by tauto; reflexivity|].
  split; [intros H; destruct (_ && _ && _ && _); rewrite ?H; reflexivity|].
  intros Hsig' Hk' Ht' Hl'. rewrite sector_checks_pass by assumption.
  replace (part_lFirst sub s =? 0) with false by (symmetry; apply Z.eqb_neq; exact Hl').
  reflexivity.
Qed.

Lemma partition_location_witness :
  init_fs_offset img_nested 0 1 = Some (3 * SECTOR_SIZE).
Proof.
  destruct (partition_location img_nested 0 1 (mbr_bytes [(129, 1)])
              ltac:(lia) ltac:(vm_compute; reflexivity)) as (_ & _ & _ & _ & _ & H).
  destruct (H ltac:(split; vm_compute; reflexivity) ltac:(lia)
              ltac:(vm_compute; reflexivity) ltac:(vm_compute; discriminate)) as [_ H2].
  destruct (H2 ltac:(lia) (mbr_bytes [(0, 0); (129, 3)]) ltac:(vm_compute; reflexivity))
    as (_ & _ & _ & _ & H3).
  exact (H3 ltac:(split; vm_compute; reflexivity) ltac:(lia)
            ltac:(vm_compute; reflexivity) ltac:(vm_compute; discriminate)).
Defined.

(* ------------------------------------------------------------------ *)
(** ** Inodes *)

Lemma read_fs_bytes_eq (st : fs_state) (off n : Z) :
  read_fs_bytes st off n = read_at (image_fp st) (fs_offset st + off) n.
Proof.
  unfold read_fs_bytes, read_fs_bytes_d. cbv zeta.
  destruct (Z.ltb_spec (fs_offset st + off) 0) as [H|H].
  - rewrite read_at_neg by exact H. reflexivity.
  - destruct (read_at _ _ _); reflexivity.
Qed.

(** With [verbose] off, [read_fs_bytes] prints nothing. *)
Lemma read_fs_bytes_quiet (st : fs_state) (off n : Z) :
  verbose st = 0 -> snd (read_fs_bytes_d st off n) = [].
Proof.
  intros Hv. unfold read_fs_bytes_d. cbv zeta. rewrite Hv. simpl.
  destruct (_ <? 0); [reflexivity|]. destruct (read_at _ _ _); reflexivity.
Qed.

(** A successful read prints nothing; a failed one prints at most one
    line, a [read_fs_bytes:] message. *)
Lemma read_fs_bytes_msgs (st : fs_state) (off n : Z) :
  match read_fs_bytes_d st off n with
  | (Some _, e) => e = []
  | (None, e) => e = [] \/ exists m, e = [Err ("read_fs_bytes: " ++ m)%string]
  end.
Proof.
  unfold read_fs_bytes_d. cbv zeta.
  destruct (_ <? 0).
  - destruct (verbose st =? 0); [left; reflexivity | right; eexists; reflexivity].
  - destruct (read_at _ _ _); [reflexivity|].
    destruct (verbose st =? 0); [left; reflexivity | right; eexists; reflexivity].
Qed.

Lemma read_inode_d_eq (st : fs_state) (n : Z) :
  read_inode_d st n =
  let sb := curr_sb st in
  if (n =? 0) || (ninodes sb <? n) then (None, [])
  else
    let off := u32 (2 + i_blocks sb + z_blocks sb) * blocksize sb + (n - 1) * INODE_SIZE in
    (option_map parse_inode (fst (read_fs_bytes_d st off INODE_SIZE)),
     snd (read_fs_bytes_d st off INODE_SIZE)).
Proof.
  unfold read_inode_d. cbv zeta. destruct (_ || _); [reflexivity|].
  destruct (read_fs_bytes_d _ _ _); reflexivity.
Qed.

(** C4, as stated, fails: on an image whose superblock is intact but which
    ends before the inode table, [read_inode 1] fails although
    [1 <= ninodes]. *)
Lemma read_inode_counterexample :
  exists st, init_filesystem img_truncated (-1) (-1) 0 = Returns (Some st) /\
             1 <= 1 <= ninodes (curr_sb st) /\ read_inode st 1 = None.
Proof.
  eexists. split; [vm_compute; reflexivity|]. split; vm_compute; [split; discriminate | reflexivity].
Qed.

Lemma read_at_some (image : list Z) (abs n : Z) :
  0 < n -> (read_at image abs n <> None <-> 0 <= abs /\ abs + n <= Z.of_nat (List.length image)).
Proof.
  intros Hn. unfold read_at.
  destruct (Z.ltb_spec abs 0); [split; [congruence | lia]|].
  replace (n =? 0) with false by (symmetry; apply Z.eqb_neq; lia).
  destruct (Z.ltb_spec (Z.of_nat (List.length image)) (abs + n)); split; try congruence; lia.
Qed.

Lemma read_at_length (image : list Z) (abs n : Z) (b : list Z) :
  0 <= n -> read_at image abs n = Some b -> List.length b = Z.to_nat n.
Proof.
  intros Hn. unfold read_at, sublist.
  destruct (Z.ltb_spec abs 0) as [|Ha]; [discriminate|].
  destruct (Z.eqb_spec n 0) as [->|Hn0]; [intros Hb; injection Hb; intros <-; reflexivity|].
  destruct (Z.ltb_spec (Z.of_nat (List.length image)) (abs + n)) as [Hlt|Hge]; [discriminate|].
  intros Hb; injection Hb; intros <-. rewrite length_firstn, length_skipn.
  apply Nat.min_l. rewrite <- (Z2Nat.id abs) in Hge by exact Ha.
  rewrite <- (Z2Nat.id n) in Hge by exact Hn. lia.
Qed.

(** C4 (amended): [read_inode 0] and [read_inode n] for [n > ninodes] fail;
    for [1 <= n <= ninodes], [read_inode n] is exactly the 64-byte read at
    offset [((2 + i_blocks + z_blocks) mod 2^32) * blocksize + (n - 1) * 64]
    from the filesystem start (the block number is a [uint32_t]), decoded
    as an inode: it succeeds, with a 64-byte record, exactly when those
    bytes lie within the image. *)
Theorem read_inode_location (st : fs_state) (n : Z) :
  let sb := curr_sb st in
  let off := u32 (2 + i_blocks sb + z_blocks sb) * blocksize sb + (n - 1) * INODE_SIZE in
  read_inode st 0 = None /\
  (ninodes sb < n -> read_inode st n = None) /\
  (1 <= n <= ninodes sb ->
   read_inode st n = option_map parse_inode (read_fs_bytes st off INODE_SIZE) /\
   (read_fs_bytes st off INODE_SIZE <> None <->
    0 <= fs_offset st + off /\ fs_offset st + off + INODE_SIZE <= Z.of_nat (List.length (image_fp st))) /\
   (forall b, read_fs_bytes st off INODE_SIZE = Some b -> List.length b = 64%nat)).
Proof.
  intros sb off. unfold read_inode. rewrite !read_inode_d_eq. cbv zeta. fold sb.
  split; [reflexivity|].
  split; [intros H; replace (ninodes sb <? n) with true by (symmetry; apply Z.ltb_lt; exact H);
          rewrite orb_true_r; reflexivity|].
  intros Hn.
  replace (n =? 0) with false by (symmetry; apply Z.eqb_neq; lia).
  replace (ninodes sb <? n) with false by (symmetry; apply Z.ltb_ge; lia).
  fold off. split; [reflexivity|]. rewrite read_fs_bytes_eq. split.
  - apply read_at_some. unfold INODE_SIZE; lia.
  - intros b Hb. apply read_at_length in Hb; [exact Hb|]. unfold INODE_SIZE; lia.
Qed.

Lemma read_inode_location_witness :
  read_inode st1 2 =
  option_map parse_inode
    (read_fs_bytes st1 (u32 (2 + i_blocks (curr_sb st1) + z_blocks (curr_sb st1)) *
                        blocksize (curr_sb st1) + (2 - 1) * INODE_SIZE) INODE_SIZE).
Proof.
  destruct (read_inode_location st1 2) as (_ & _ & H).
  destruct (H ltac:(split; zcheck)) as [E _].
  exact E.
Defined.

(* ------------------------------------------------------------------ *)
(** ** The block mapper *)

Lemma blocks_per_zone_pow (lzs : Z) :
  0 <= lzs < 32 -> u32 (Z.shiftl 1 lzs) = 2 ^ lzs.
Proof.
  intros H. unfold u32. rewrite Z.shiftl_1_l. apply Z.mod_small.
  split; [apply Z.pow_nonneg; lia | apply Z.pow_lt_mono_r; lia].
Qed.

(** A table read is either undefined or the read of [blocksize] bytes at
    [z * zone_size], into an array of at least one pointer. *)
Lemma read_table_cases (st : fs_state) (z cap : Z) :
  (read_table st z cap =
     Returns (read_fs_bytes_d st (z * zone_size st) (blocksize (curr_sb st))) /\ cap <> 0) \/
  read_table st z cap = Undefined.
Proof.
  unfold read_table. cbv zeta.
  destruct (Z.eqb_spec cap 0); [right; reflexivity|].
  destruct (_ || _ || _); [right; reflexivity | left; split; [reflexivity | assumption]].
Qed.

Lemma get_file_blk_lzs (st : fs_state) (ino : minix_inode_t) (L : Z) :
  get_file_blk st ino L <> Undefined -> 0 <= log_zone_size (curr_sb st) < 32.
Proof.
  unfold get_file_blk, get_file_blk_d. intros H.
  destruct (Z.ltb_spec (log_zone_size (curr_sb st)) 0); [exfalso; apply H; reflexivity|].
  destruct (Z.ltb_spec 31 (log_zone_size (curr_sb st))); [exfalso; apply H; reflexivity|].
  lia.
Qed.

(** The shape of [get_file_blk_d] once the shift is known to be defined. *)
Lemma get_file_blk_d_eq (st : fs_state) (ino : minix_inode_t) (L : Z) :
  0 <= log_zone_size (curr_sb st) < 32 ->
  let bpz := 2 ^ log_zone_size (curr_sb st) in
  let P := blocksize (curr_sb st) / 4 in
  let z := L / bpz in
  let biz := L mod bpz in
  let fin (zn : Z) (evs : list event) : outcome (Z * list event) :=
    if zn =? 0 then Returns (0, evs) else Returns (u32 (zn * bpz + biz), evs) in
  get_file_blk_d st ino L =
  if z <? 7 then fin (nth (Z.to_nat z) (zone ino) 0) []
  else if z <? 7 + P then
    if indirect ino =? 0 then fin 0 []
    else
      match read_table st (indirect ino) P with
      | Undefined => Undefined
      | Diverges => Diverges
      | Returns (Some t, e) => fin (le32 t (4 * (z - 7))) e
      | Returns (None, e) => fin 0 e
      end
  else
    if two_indirect ino =? 0 then fin 0 []
    else
      match read_table st (two_indirect ino) P with
      | Undefined => Undefined
      | Diverges => Diverges
      | Returns (None, e) => fin 0 e
      | Returns (Some fl, e) =>
          if (z - 7 - P) / P <? P then
            let z2 := le32 fl (4 * ((z - 7 - P) / P)) in
            if z2 =? 0 then fin 0 e
            else
              match read_table st z2 P with
              | Undefined => Undefined
              | Diverges => Diverges
              | Returns (Some sl, e2) => fin (le32 sl (4 * ((z - 7 - P) mod P))) (e ++ e2)
              | Returns (None, e2) => fin 0 (e ++ e2)
              end
          else fin 0 e
      end.
Proof.
  intros Hlz. unfold get_file_blk_d. cbv zeta.
  replace ((log_zone_size (curr_sb st) <? 0) || (31 <? log_zone_size (curr_sb st))) with false
    by (symmetry; apply orb_false_iff; split; [apply Z.ltb_ge | apply Z.ltb_ge]; lia).
  rewrite blocks_per_zone_pow by exact Hlz. unfold DIRECT_ZONES.
  replace (L / 2 ^ log_zone_size (curr_sb st) - (7 + blocksize (curr_sb st) / 4))
    with (L / 2 ^ log_zone_size (curr_sb st) - 7 - blocksize (curr_sb st) / 4) by lia.
  reflexivity.
Qed.

Lemma fin_code (bpz biz zn : Z) (evs : list event) :
  outcome_map fst (if zn =? 0 then Returns (0, evs) else Returns (u32 (zn * bpz + biz), evs)) =
  Returns (u32 (blk_code (resolve_zone bpz biz zn))).
Proof. unfold resolve_zone. destruct (zn =? 0); reflexivity. Qed.

(** C1, as stated, fails: with two blocks per zone, a direct zone number of
    [2^31] resolves to block [2^32] by the spec, but [get_file_blk] computes
    in 32 bits and returns 0, the hole marker. *)
Lemma get_file_blk_counterexample :
  log_zone_size (curr_sb st2) = 1 /\
  nth 0 (zone ino_big) 0 = 2 ^ 31 /\
  map_block_spec st2 ino_big 0 = Some (Disk (2 ^ 32)) /\
  get_file_blk st2 ino_big 0 = Returns 0.
Proof. repeat split; vm_compute; reflexivity. Qed.

(** C1 (amended): whenever [get_file_blk] runs without undefined behaviour
    (so [0 <= log_zone_size <= 31], and a table it reads holds at least one
    pointer and takes the [blocksize] bytes read into it, at an offset that
    fits in [off_t]), it decomposes [L] into the logical zone
    [L / blocks_per_zone] and [L mod blocks_per_zone], takes the zone number
    from the direct table (zone < 7), from slot [zone - 7] of the
    single-indirect table (zone < 7 + P), or from slot [(zone-7-P) mod P]
    of the table named by slot [(zone-7-P) / P] of the double-indirect table
    (zone < 7 + P + P^2); it yields the hole (0) beyond that range and
    whenever a zone number it meets is 0, and otherwise the block
    [zone_num * blocks_per_zone + block_in_zone] taken modulo [2^32] --
    whenever the table reads succeed. *)
Theorem get_file_blk_resolution (st : fs_state) (ino : minix_inode_t) (L : Z) (r : blk_result) :
  0 <= blocksize (curr_sb st) -> 0 <= L ->
  map_block_spec st ino L = Some r -> get_file_blk st ino L <> Undefined ->
  get_file_blk st ino L = Returns (u32 (blk_code r)).
Proof.
  intros Hbs HL Hspec Hdef.
  pose proof (get_file_blk_lzs st ino L Hdef) as Hlz.
  revert Hspec Hdef. unfold map_block_spec, get_file_blk.
  rewrite (get_file_blk_d_eq st ino L Hlz). cbv zeta.
  set (bpz := 2 ^ log_zone_size (curr_sb st)) in *.
  set (P := blocksize (curr_sb st) / 4) in *.
  set (z := L / bpz) in *. set (biz := L mod bpz) in *.
  assert (HP : 0 <= P) by (unfold P; apply Z.div_pos; lia).
  assert (Hz : 0 <= z) by (unfold z, bpz; apply Z.div_pos; [lia | apply Z.pow_pos_nonneg; lia]).
  destruct (z <? 7) eqn:E1.
  { intros Hspec _. injection Hspec; intros <-. apply fin_code. }
  destruct (z <? 7 + P) eqn:E2.
  { destruct (indirect ino =? 0).
    - intros Hspec _. injection Hspec; intros <-. reflexivity.
    - unfold table_slot, read_fs_bytes.
      destruct (read_table_cases st (indirect ino) P) as [[E _]|E]; rewrite E;
        [|intros _ H; exfalso; apply H; reflexivity].
      destruct (read_fs_bytes_d st (indirect ino * zone_size st) (blocksize (curr_sb st)))
        as [[buf|] e]; [|discriminate].
      intros Hspec _. simpl in Hspec. injection Hspec; intros <-.
      replace (4 * (z - 7)) with (4 * (z - 7)) by reflexivity. apply fin_code. }
  rewrite Z.ltb_ge in E1, E2.
  destruct (two_indirect ino =? 0).
  { intros Hspec _. destruct (z <? 7 + P + P * P); injection Hspec; intros <-; reflexivity. }
  unfold table_slot, read_fs_bytes.
  destruct (read_table_cases st (two_indirect ino) P) as [[E HP0]|E]; rewrite E;
    [|intros _ H; exfalso; apply H; reflexivity].
  assert (HPpos : 0 < P) by lia.
  destruct (read_fs_bytes_d st (two_indirect ino * zone_size st) (blocksize (curr_sb st)))
    as [[fl|] e].
  2:{ cbn [fst option_map]. destruct (z <? 7 + P + P * P); intros Hspec _; [discriminate|].
      injection Hspec; intros <-. reflexivity. }
  cbn [fst option_map].
  destruct (z <? 7 + P + P * P) eqn:E3.
  - apply Z.ltb_lt in E3.
    assert (Hfi : (z - 7 - P) / P < P) by (apply Z.div_lt_upper_bound; lia).
    replace ((z - 7 - P) / P <? P) with true by (symmetry; apply Z.ltb_lt; exact Hfi).
    destruct (le32 fl (4 * ((z - 7 - P) / P)) =? 0).
    { intros Hspec _. injection Hspec; intros <-. reflexivity. }
    destruct (read_table_cases st (le32 fl (4 * ((z - 7 - P) / P))) P) as [[E' _]|E']; rewrite E';
      [|intros _ H; exfalso; apply H; reflexivity].
    destruct (read_fs_bytes_d st (le32 fl (4 * ((z - 7 - P) / P)) * zone_size st)
                (blocksize (curr_sb st))) as [[sl|] e2]; [|discriminate].
    intros Hspec _. simpl in Hspec. injection Hspec; intros <-. apply fin_code.
  - intros Hspec _. injection Hspec; intros <-. apply Z.ltb_ge in E3.
    replace ((z - 7 - P) / P <? P) with false; [reflexivity|].
    symmetry; apply Z.ltb_ge. apply Z.div_le_lower_bound; lia.
Qed.

Lemma get_file_blk_resolution_witness :
  get_file_blk st1_ind ino_ind 7 = Returns (u32 9).
Proof.
  apply (get_file_blk_resolution st1_ind ino_ind 7 (Disk 9)); zcheck.
Defined.

(** A failed table read yields 0, the code for a hole. *)
Lemma get_file_blk_read_failure (st : fs_state) (ino : minix_inode_t) (L : Z) :
  0 <= blocksize (curr_sb st) -> 0 <= L ->
  map_block_spec st ino L = None -> get_file_blk st ino L <> Undefined ->
  get_file_blk st ino L = Returns 0.
Proof.
  intros Hbs HL Hspec Hdef.
  pose proof (get_file_blk_lzs st ino L Hdef) as Hlz.
  revert Hspec Hdef. unfold map_block_spec, get_file_blk.
  rewrite (get_file_blk_d_eq st ino L Hlz). cbv zeta.
  set (bpz := 2 ^ log_zone_size (curr_sb st)) in *.
  set (P := blocksize (curr_sb st) / 4) in *.
  set (z := L / bpz) in *. set (biz := L mod bpz) in *.
  destruct (z <? 7); [discriminate|].
  destruct (z <? 7 + P).
  { destruct (indirect ino =? 0); [discriminate|]. unfold table_slot, read_fs_bytes.
    destruct (read_table_cases st (indirect ino) P) as [[E _]|E]; rewrite E;
      [|intros _ H; exfalso; apply H; reflexivity].
    destruct (read_fs_bytes_d st (indirect ino * zone_size st) (blocksize (curr_sb st)))
      as [[buf|] e]; [discriminate|reflexivity]. }
  destruct (z <? 7 + P + P * P); [|discriminate].
  destruct (two_indirect ino =? 0); [discriminate|]. unfold table_slot, read_fs_bytes.
  destruct (read_table_cases st (two_indirect ino) P) as [[E _]|E]; rewrite E;
    [|intros _ H; exfalso; apply H; reflexivity].
  destruct (read_fs_bytes_d st (two_indirect ino * zone_size st) (blocksize (curr_sb st)))
    as [[fl|] e]; [|reflexivity].
  cbn [fst option_map].
  destruct ((z - 7 - P) / P <? P); [|reflexivity].
  destruct (le32 fl (4 * ((z - 7 - P) / P)) =? 0); [discriminate|].
  destruct (read_table_cases st (le32 fl (4 * ((z - 7 - P) / P))) P) as [[E' _]|E']; rewrite E';
    [|intros _ H; exfalso; apply H; reflexivity].
  destruct (read_fs_bytes_d st (le32 fl (4 * ((z - 7 - P) / P)) * zone_size st)
              (blocksize (curr_sb st))) as [[sl|] e2]; [discriminate|reflexivity].
Qed.

(** C2, as stated, fails: the single-indirect zone 1000 of [ino_bad_ind]
    lies past the end of [img1], so the table read fails, and
    [get_file_blk] returns 0, the same value as for a hole. *)
Lemma get_file_blk_read_failure_counterexample :
  indirect ino_bad_ind = 1000 /\
  7 <= 7 / blks_per_zone st1 < 7 + blocksize (curr_sb st1) / 4 /\
  read_fs_bytes st1 (indirect ino_bad_ind * zone_size st1) (blocksize (curr_sb st1)) = None /\
  get_file_blk st1 ino_bad_ind 7 = Returns (blk_code Hole).
Proof. repeat split; vm_compute; first [reflexivity | discriminate]. Qed.

(** C2 (amended): when [get_file_blk] runs without undefined behaviour, for
    a logical zone [z = L / 2^log_zone_size] in the single-indirect range
    whose indirect zone is nonzero, or in the double-indirect range whose
    double-indirect zone is nonzero, a failed read of the indirect table
    (resp. of the first-level table, or of the second-level table named by
    a nonzero slot) makes [get_file_blk] return 0: the failure is reported
    as a hole. *)
Theorem get_file_blk_failed_read_is_hole (st : fs_state) (ino : minix_inode_t) (L : Z) :
  0 <= blocksize (curr_sb st) -> 0 <= L -> get_file_blk st ino L <> Undefined ->
  let z := L / 2 ^ log_zone_size (curr_sb st) in
  let P := blocksize (curr_sb st) / 4 in
  let bs := blocksize (curr_sb st) in
  (7 <= z < 7 + P -> indirect ino <> 0 ->
   read_fs_bytes st (indirect ino * zone_size st) bs = None ->
   get_file_blk st ino L = Returns 0) /\
  (7 + P <= z < 7 + P + P * P -> two_indirect ino <> 0 ->
   (read_fs_bytes st (two_indirect ino * zone_size st) bs = None \/
    exists fl, read_fs_bytes st (two_indirect ino * zone_size st) bs = Some fl /\
      le32 fl (4 * ((z - 7 - P) / P)) <> 0 /\
      read_fs_bytes st (le32 fl (4 * ((z - 7 - P) / P)) * zone_size st) bs = None) ->
   get_file_blk st ino L = Returns 0).
Proof.
  intros Hbs HL Hdef z P bs.
  assert (HP : 0 <= P) by (unfold P; apply Z.div_pos; lia). split.
  - intros Hz Hind Hread. apply get_file_blk_read_failure; try assumption.
    unfold map_block_spec. cbv zeta. fold z P.
    replace (z <? 7) with false by (symmetry; apply Z.ltb_ge; lia).
    replace (z <? 7 + P) with true by (symmetry; apply Z.ltb_lt; lia).
    replace (indirect ino =? 0) with false by (symmetry; apply Z.eqb_neq; exact Hind).
    unfold table_slot. fold bs. rewrite Hread. reflexivity.
  - intros Hz Hind Hread. apply get_file_blk_read_failure; try assumption.
    unfold map_block_spec. cbv zeta. fold z P.
    replace (z <? 7) with false by (symmetry; apply Z.ltb_ge; lia).
    replace (z <? 7 + P) with false by (symmetry; apply Z.ltb_ge; lia).
    replace (z <? 7 + P + P * P) with true by (symmetry; apply Z.ltb_lt; lia).
    replace (two_indirect ino =? 0) with false by (symmetry; apply Z.eqb_neq; exact Hind).
    unfold table_slot. fold bs.
    destruct Hread as [Hr | (fl & Hr & Hnz & Hr2)]; rewrite Hr; [reflexivity|].
    cbn [option_map].
    replace (le32 fl (4 * ((z - 7 - P) / P)) =? 0) with false by (symmetry; apply Z.eqb_neq; exact Hnz).
    rewrite Hr2. reflexivity.
Qed.

Lemma get_file_blk_failed_read_is_hole_witness :
  get_file_blk st1 ino_bad_ind 7 = Returns 0.
Proof.
  refine (proj1 (get_file_blk_failed_read_is_hole st1 ino_bad_ind 7 _ _ _) _ _ _); zcheck.
Defined.


Lemma no_nul_slash (l : list ascii) : no_nul l -> no_nul ("/"%char :: l).
Proof. intros H x [<-|Hx]; [reflexivity | auto]. Qed.





Lemma list_ascii_eqb_slash_cons (c : ascii) (l : list ascii) :
  list_ascii_eqb ("/"%char :: c :: l) ["/"%char] = false.
Proof.
  destruct (list_ascii_eqb ("/"%char :: c :: l) ["/"%char]) eqn:E; [|reflexivity].
  apply list_ascii_eqb_slash in E. discriminate.
Qed.

(** The component list [get_inode_by_path] walks for ["/" ++ p], when [p]
    is free of NUL and short enough to be copied whole. *)
Lemma get_inode_by_path_tokens (st : fs_state) (p : list ascii) :
  p <> [] -> no_nul p -> (List.length p <= 1023)%nat ->
  get_inode_by_path st ("/"%char :: p) =
  resolve_components st ("/"%char :: p) 1 (tokenize p).
Proof.
  intros Hne Hnn Hlen. unfold get_inode_by_path.
  rewrite c_str_id by (apply no_nul_slash; exact Hnn).
  destruct p as [|c p']; [congruence|]. rewrite list_ascii_eqb_slash_cons.
  simpl tl. rewrite firstn_all2 by exact Hlen.
  rewrite c_str_id by exact Hnn. reflexivity.
Qed.

(* ------------------------------------------------------------------ *)
(** ** Diagnostics of the reads *)

Lemma fs_diag_nil (st : fs_state) : fs_diag st [].
Proof. split; [constructor | reflexivity]. Qed.

Lemma fs_diag_app (st : fs_state) (a b : list event) :
  fs_diag st a -> fs_diag st b -> fs_diag st (a ++ b).
Proof.
  intros [Fa Qa] [Fb Qb]. split; [apply Forall_app; split; assumption|].
  intros Hv. rewrite (Qa Hv), (Qb Hv). reflexivity.
Qed.

Lemma read_fs_bytes_d_diag (st : fs_state) (off n : Z) :
  fs_diag st (snd (read_fs_bytes_d st off n)).
Proof.
  split; [|apply read_fs_bytes_quiet].
  pose proof (read_fs_bytes_msgs st off n) as H.
  destruct (read_fs_bytes_d st off n) as [[b|] e]; simpl.
  - subst e. constructor.
  - destruct H as [->|[m ->]]; [constructor|]. constructor; [exists m; reflexivity | constructor].
Qed.

Lemma read_inode_d_diag (st : fs_state) (n : Z) : fs_diag st (snd (read_inode_d st n)).
Proof.
  rewrite read_inode_d_eq. cbv zeta.
  destruct (_ || _); [apply fs_diag_nil | apply read_fs_bytes_d_diag].
Qed.

Lemma read_inode_d_fst (st : fs_state) (n : Z) (r : option minix_inode_t) (e : list event) :
  read_inode_d st n = (r, e) -> read_inode st n = r.
Proof. unfold read_inode. intros ->. reflexivity. Qed.

Lemma read_inode_d_some (st : fs_state) (n : Z) (d : minix_inode_t) :
  read_inode st n = Some d -> read_inode_d st n = (Some d, []).
Proof.
  unfold read_inode. rewrite read_inode_d_eq. cbv zeta.
  destruct (_ || _); [discriminate|].
  pose proof (read_fs_bytes_msgs st (u32 (2 + i_blocks (curr_sb st) + z_blocks (curr_sb st)) *
    blocksize (curr_sb st) + (n - 1) * INODE_SIZE) INODE_SIZE) as H.
  destruct (read_fs_bytes_d _ _ _) as [[b|] e]; simpl; [|discriminate].
  intros Hd. injection Hd as <-. subst e. reflexivity.
Qed.

Lemma read_table_diag (st : fs_state) (z cap : Z) (r : option (list Z)) (e : list event) :
  read_table st z cap = Returns (r, e) -> fs_diag st e.
Proof.
  destruct (read_table_cases st z cap) as [[E _]|E]; rewrite E; [|discriminate].
  intros H. injection H as H.
  pose proof (read_fs_bytes_d_diag st (z * zone_size st) (blocksize (curr_sb st))) as D.
  rewrite H in D. exact D.
Qed.

Lemma get_file_blk_d_diag (st : fs_state) (ino : minix_inode_t) (L b : Z) (e : list event) :
  get_file_blk_d st ino L = Returns (b, e) -> fs_diag st e.
Proof.
  intros H.
  assert (Hlz : 0 <= log_zone_size (curr_sb st) < 32).
  { apply (get_file_blk_lzs st ino L). unfold get_file_blk. rewrite H. discriminate. }
  rewrite (get_file_blk_d_eq st ino L Hlz) in H. cbv zeta in H.
  repeat (first
    [ discriminate H
    | match type of H with
      | context [if ?c then _ else _] => destruct c
      | context [match read_table ?s ?z ?p with _ => _ end] =>
          let E := fresh "E" in
          destruct (read_table s z p) as [[[?t|] ?e0]| |] eqn:E
      end ]);
  injection H as _ <-;
  repeat match goal with E : read_table _ _ _ = Returns _ |- _ =>
    apply read_table_diag in E end;
  repeat apply fs_diag_app; first [apply fs_diag_nil | assumption].
Qed.

Lemma get_file_blk_d_fst (st : fs_state) (ino : minix_inode_t) (L b : Z) (e : list event) :
  get_file_blk_d st ino L = Returns (b, e) -> get_file_blk st ino L = Returns b.
Proof. unfold get_file_blk. intros ->. reflexivity. Qed.

(* ------------------------------------------------------------------ *)
(** ** Invariants of the loops *)

Lemma iter_pos_invariant {A B : Type} (Inv : A -> Prop) (Q : B -> Prop)
  (f : A -> A + B) (p : positive) (a : A) :
  (forall a, Inv a -> match f a with inl a' => Inv a' | inr b => Q b end) ->
  Inv a -> match iter_pos p f a with inl a' => Inv a' | inr b => Q b end.
Proof.
  intros Hf. revert a. induction p as [q IH|q IH|]; intros a Ha; simpl.
  - pose proof (Hf a Ha) as H0. destruct (f a) as [a1|b]; [|exact H0].
    pose proof (IH a1 H0) as H1. destruct (iter_pos q f a1) as [a'|b]; [|exact H1].
    apply IH, H1.
  - pose proof (IH a Ha) as H1. destruct (iter_pos q f a) as [a'|b]; [|exact H1].
    apply IH, H1.
  - apply Hf, Ha.
Qed.

Lemma loop_u32_invariant {A B : Type} (Inv : A -> Prop) (Q : outcome B -> Prop)
  (f : A -> A + outcome B) (a : A) :
  (forall a, Inv a -> match f a with inl a' => Inv a' | inr o => Q o end) ->
  Inv a -> loop_u32 f a = Diverges \/ Q (loop_u32 f a).
Proof.
  intros Hf Ha. unfold loop_u32.
  pose proof (iter_pos_invariant Inv Q f (2 ^ 32)%positive a Hf Ha) as H.
  destruct (iter_pos _ f a); [left; reflexivity | right; exact H].
Qed.

Lemma scan_dir_diag (st : fs_state) (d : minix_inode_t) (token : list Z) (t : Z) (e : list event) :
  scan_dir st d token = Returns (t, e) -> fs_diag st e.
Proof.
  unfold scan_dir.
  destruct (loop_u32_invariant (fun s => fs_diag st (snd s))
              (fun o => match o with Returns (_, e) => fs_diag st e | _ => True end)
              (scan_step st d token) (0, [])) as [Hd|Hq].
  - intros [i evs] Hi. simpl in Hi. unfold scan_step. cbv zeta.
    destruct (negb _); [exact Hi|].
    destruct (get_file_blk_d st d i) as [[blk e1]| |] eqn:EG; [|exact I|exact I].
    apply get_file_blk_d_diag in EG.
    destruct (blk =? 0); [cbv beta iota delta [snd]; apply fs_diag_app; assumption|].
    destruct (_ =? 0); [exact I|].
    pose proof (read_fs_bytes_d_diag st (blk * blocksize (curr_sb st)) (blocksize (curr_sb st))) as D.
    destruct (read_fs_bytes_d _ _ _) as [[buf|] e2].
    + destruct (find_entry _ _ _ _) as [t'| |]; [|exact I|exact I].
      destruct (t' =? 0); cbv beta iota delta [snd]; apply fs_diag_app; assumption.
    + cbv beta iota delta [snd]. apply fs_diag_app; [assumption | apply fs_diag_app; assumption].
  - apply fs_diag_nil.
  - intros H. rewrite H in Hd. discriminate.
  - intros H. rewrite H in Hq. exact Hq.
Qed.

(** What a run of the component loop returns, and what it prints: messages
    of [read_fs_bytes], then possibly the not-a-directory line. *)
Lemma resolve_components_result (st : fs_state) (cp : list ascii)
  (toks : list (list ascii * list ascii)) (n : Z) :
  match resolve_components st cp n toks with
  | Returns (x, evs) =>
      (x = 0 \/ x = n \/ exists ino, read_inode st x = Some ino) /\
      exists pre tl, evs = pre ++ tl /\ fs_diag st pre /\
        (tl = [] \/ (x = 0 /\ tl = [Err (not_a_directory_msg cp)]))
  | _ => True
  end.
Proof.
  revert n. induction toks as [|[token nts] toks IH]; intros n; simpl.
  - split; [right; left; reflexivity|]. exists [], []. split; [reflexivity|].
    split; [apply fs_diag_nil | left; reflexivity].
  - pose proof (read_inode_d_diag st n) as D0.
    destruct (read_inode_d st n) as [[d|] e0]; simpl in D0.
    2:{ split; [left; reflexivity|]. exists e0, []. rewrite app_nil_r.
        split; [reflexivity | split; [exact D0 | left; reflexivity]]. }
    destruct (scan_dir st d (bytes_of token)) as [[t e1]| |] eqn:ES; try exact I.
    apply scan_dir_diag in ES.
    destruct (t =? 0).
    { split; [left; reflexivity|]. exists (e0 ++ e1), []. rewrite app_nil_r.
      split; [reflexivity | split; [apply fs_diag_app; assumption | left; reflexivity]]. }
    pose proof (read_inode_d_diag st t) as D2.
    destruct (read_inode_d st t) as [[td|] e2] eqn:Etd; simpl in D2.
    2:{ split; [left; reflexivity|]. exists (e0 ++ e1 ++ e2), []. rewrite app_nil_r.
        split; [reflexivity | split; [repeat apply fs_diag_app; assumption | left; reflexivity]]. }
    apply read_inode_d_fst in Etd.
    destruct (_ && _).
    { split; [left; reflexivity|]. exists (e0 ++ e1 ++ e2), [Err (not_a_directory_msg cp)].
      split; [rewrite <- !app_assoc; reflexivity|].
      split; [repeat apply fs_diag_app; assumption | right; split; reflexivity]. }
    specialize (IH t). destruct (resolve_components st cp t toks) as [[x e3]| |]; try exact I.
    destruct IH as [Hx (pre & tl & -> & Dp & Htl)]. split.
    + destruct Hx as [H|[H|H]]; auto. subst x. right; right. exists td; exact Etd.
    + exists (e0 ++ e1 ++ e2 ++ pre), tl. split; [rewrite <- !app_assoc; reflexivity|].
      split; [repeat apply fs_diag_app; assumption | exact Htl].
Qed.

(** [get_inode_by_path] returns 0 (failure), 1 (the root) or an inode it has
    read successfully.  What it prints is the messages of [read_fs_bytes]
    (none unless verbose), followed, only when it returns 0, by at most the
    not-a-directory diagnostic. *)
Theorem get_inode_by_path_result (st : fs_state) (cp : list ascii) :
  match get_inode_by_path st cp with
  | Returns (x, evs) =>
      (x = 0 \/ x = 1 \/ exists ino, read_inode st x = Some ino) /\
      exists pre tl, evs = pre ++ tl /\ fs_diag st pre /\
        (tl = [] \/ (x = 0 /\ tl = [Err (not_a_directory_msg (c_str cp))]))
  | _ => True
  end.
Proof.
  unfold get_inode_by_path. cbv zeta.
  destruct (list_ascii_eqb (c_str cp) ["/"%char]).
  - split; [right; left; reflexivity|]. exists [], []. split; [reflexivity|].
    split; [apply fs_diag_nil | left; reflexivity].
  - apply resolve_components_result.
Qed.



(** C8, as stated, fails: the first block of the root directory of [img1]
    (disk block 100) cannot be read, yet [/a] still resolves to inode 2,
    found in the second block, without any diagnostic, and listing [/]
    reports the block, goes on with the next one, and ends with status 0. *)
Lemma dir_block_read_failure_counterexample :
  read_inode st1 1 = Some img1_root /\
  get_file_blk st1 img1_root 0 = Returns 100 /\
  read_fs_bytes st1 (100 * blocksize (curr_sb st1)) (blocksize (curr_sb st1)) = None /\
  get_inode_by_path st1 ["/"%char; "a"%char] = Returns (2, []) /\
  list_directory_contents st1 1 "/" =
    Returns (0, [Out ("/:" ++ nl)%string;
                 Err ("minls: Error reading directory data block 100." ++ nl)%string;
                 Out ("-rw-r--r--        10 a" ++ nl)%string]).
Proof. repeat split; vm_compute; reflexivity. Qed.

(** C8 (amended): in both directory walks, a non-hole block [i] of the
    directory whose read fails is skipped and the walk goes on with block
    [i + 1]: path resolution prints nothing for it beyond the messages of
    [read_fs_bytes] (none unless verbose), listing adds
    [minls: Error reading directory data block N.]; and a listing of the
    directory that reaches block [i] still ends with status 0 (when it
    ends without undefined behaviour), its output containing that line. *)
Theorem dir_block_read_failure_skipped (st : fs_state) (d : minix_inode_t)
  (token : list Z) (i blk : Z) (e1 : list event) :
  blocksize (curr_sb st) <> 0 ->
  u32 (i * blocksize (curr_sb st)) < size d ->
  get_file_blk_d st d i = Returns (blk, e1) -> blk <> 0 ->
  read_fs_bytes st (blk * blocksize (curr_sb st)) (blocksize (curr_sb st)) = None ->
  let e2 := snd (read_fs_bytes_d st (blk * blocksize (curr_sb st)) (blocksize (curr_sb st))) in
  (forall evs, scan_step st d token (i, evs) = inl (u32 (i + 1), evs ++ e1 ++ e2)) /\
  (forall evs, list_step st d (i, evs) =
     inl (u32 (i + 1), evs ++ e1 ++ e2 ++ [Err (read_block_error_msg blk)])) /\
  fs_diag st (e1 ++ e2) /\
  read_block_error_msg blk =
    ("minls: Error reading directory data block " ++ fmt_u blk ++ "." ++ nl)%string /\
  (forall n path, read_inode st n = Some d -> is_dir_mode (mode d) = true ->
   0 <= i -> 0 < blocksize (curr_sb st) -> i * blocksize (curr_sb st) < size d < 2 ^ 32 ->
   match list_directory_contents st n path with
   | Returns (status, evs) => status = 0 /\ In (Err (read_block_error_msg blk)) evs
   | _ => True
   end).
Proof.
  intros Hbs Hi Hblk Hnz Hread e2.
  assert (Hstep : forall evs, list_step st d (i, evs) =
     inl (u32 (i + 1), evs ++ e1 ++ e2 ++ [Err (read_block_error_msg blk)])).
  { intros evs. unfold list_step. cbv beta iota zeta.
    apply Z.ltb_lt in Hi. rewrite Hi. cbn [negb]. rewrite Hblk.
    apply Z.eqb_neq in Hnz, Hbs. rewrite Hnz, Hbs. unfold e2.
    unfold read_fs_bytes in Hread.
    destruct (read_fs_bytes_d _ _ _) as [[b|] e]; [discriminate|reflexivity]. }
  split.
  { intros evs. unfold scan_step. cbv beta iota zeta.
    apply Z.ltb_lt in Hi. rewrite Hi. cbn [negb]. rewrite Hblk.
    apply Z.eqb_neq in Hnz, Hbs. rewrite Hnz, Hbs. unfold e2.
    unfold read_fs_bytes in Hread.
    destruct (read_fs_bytes_d _ _ _) as [[b|] e]; [discriminate|reflexivity]. }
  split; [exact Hstep|].
  split; [apply fs_diag_app; [apply (get_file_blk_d_diag st d i blk e1 Hblk) | apply read_fs_bytes_d_diag]|].
  split; [reflexivity|].
  intros n path Hd Hdir Hi0 Hbs0 [Hsz Hsz32].
  set (msg := Err (read_block_error_msg blk)).
  unfold list_directory_contents.
  rewrite (read_inode_d_some st n d Hd). cbv beta iota zeta.
  rewrite Hdir. cbn [negb].
  destruct (loop_u32_invariant
              (fun s => (0 <= fst s <= i) \/ In msg (snd s))
              (fun o => match o with Returns evs => In msg evs | _ => True end)
              (list_step st d) (0, [] ++ [Out (path ++ ":" ++ nl)%string])) as [Hd'|Hq].
  - intros [k evs] Hk. cbn [fst snd] in Hk.
    set (bs := blocksize (curr_sb st)) in *.
    destruct Hk as [Hk|Hk].
    + assert (Hk1 : u32 (k + 1) = k + 1) by (unfold u32; apply Z.mod_small; nia).
      assert (Hc : (u32 (k * bs) <? size d) = true)
        by (apply Z.ltb_lt; unfold u32; rewrite Z.mod_small by nia; nia).
      destruct (Z.eq_dec k i) as [->|Hki].
      { rewrite Hstep. cbv beta iota. right. cbn [snd].
        apply in_or_app; right. apply in_or_app; right. apply in_or_app; right. left; reflexivity. }
      unfold list_step. cbv beta iota zeta. fold bs. rewrite Hc. cbn [negb].
      destruct (get_file_blk_d st d k) as [[b e]| |]; [|exact I|exact I].
      destruct (b =? 0); [cbv beta iota; left; cbn [fst]; rewrite Hk1; lia|].
      destruct (bs =? 0); [exact I|].
      destruct (read_fs_bytes_d st (b * bs) bs) as [[buf|] e']; cbv beta iota; left; cbn [fst]; rewrite Hk1; lia.
    + unfold list_step. cbv beta iota zeta.
      destruct (negb _); [exact Hk|].
      destruct (get_file_blk_d st d k) as [[b e]| |]; [|exact I|exact I].
      destruct (b =? 0); [cbv beta iota; right; cbn [snd]; apply in_or_app; left; exact Hk|].
      destruct (_ =? 0); [exact I|].
      destruct (read_fs_bytes_d st (b * blocksize (curr_sb st)) (blocksize (curr_sb st)))
        as [[buf|] e'];
        cbv beta iota; right; cbn [snd]; apply in_or_app; left; exact Hk.
  - left. cbn [fst]. lia.
  - rewrite Hd'. exact I.
  - destruct (loop_u32 _ _); [|exact I|exact I]. split; [reflexivity | exact Hq].
Qed.

Lemma dir_block_read_failure_skipped_witness :
  match list_directory_contents st1 1 "/" with
  | Returns (status, evs) => status = 0 /\ In (Err (read_block_error_msg 100)) evs
  | _ => True
  end.
Proof.
  refine (proj2 (proj2 (proj2 (proj2
    (dir_block_read_failure_skipped st1 img1_root [97] 0 100 [] _ _ _ _ _)))) 1 "/"%string _ _ _ _ _);
    zcheck.
Defined.
(* ------------------------------------------------------------------ *)
(** ** Permission strings *)

Lemma perm_char_low (m mask : Z) (c : string) :
  Z.land 511 mask = mask -> perm_char m mask c = perm_char (Z.land m 511) mask c.
Proof. intros H. unfold perm_char. rewrite <- Z.land_assoc, H. reflexivity. Qed.

Lemma get_permissions_string_low (m1 m2 : Z) :
  is_dir_mode m1 = is_dir_mode m2 -> Z.land m1 511 = Z.land m2 511 ->
  get_permissions_string m1 = get_permissions_string m2.
Proof.
  intros Hd Hl. unfold get_permissions_string. rewrite Hd.
  rewrite (perm_char_low m1 256), (perm_char_low m1 128), (perm_char_low m1 64),
    (perm_char_low m1 32), (perm_char_low m1 16), (perm_char_low m1 8),
    (perm_char_low m1 4), (perm_char_low m1 2), (perm_char_low m1 1) by reflexivity.
  rewrite (perm_char_low m2 256), (perm_char_low m2 128), (perm_char_low m2 64),
    (perm_char_low m2 32), (perm_char_low m2 16), (perm_char_low m2 8),
    (perm_char_low m2 4), (perm_char_low m2 2), (perm_char_low m2 1) by reflexivity.
  rewrite Hl. reflexivity.
Qed.

(** A representative mode for a type flag and nine permission bits. *)
Lemma perm_representative (b : bool) (k : Z) :
  0 <= k < 512 ->
  is_dir_mode (k + if b then S_IFDIR else 0) = b /\
  Z.land (k + if b then S_IFDIR else 0) 511 = k /\
  decode_perm (get_permissions_string (k + if b then S_IFDIR else 0)) = (b, k).
Proof.
  intros Hk.
  assert (Hall : forall b : bool, forallb (fun n : nat => let k := Z.of_nat n in
            Bool.eqb (is_dir_mode (k + if b then S_IFDIR else 0)) b &&
            (Z.land (k + if b then S_IFDIR else 0) 511 =? k) &&
            Bool.eqb (fst (decode_perm (get_permissions_string (k + if b then S_IFDIR else 0)))) b &&
            (snd (decode_perm (get_permissions_string (k + if b then S_IFDIR else 0))) =? k))
            (seq 0 512) = true)
    by (intros []; vm_compute; reflexivity).
  specialize (Hall b). rewrite forallb_forall in Hall.
  specialize (Hall (Z.to_nat k)). rewrite Z2Nat.id in Hall by lia.
  assert (Hin : In (Z.to_nat k) (seq 0 512)) by (apply in_seq; lia).
  specialize (Hall Hin).
  apply andb_prop in Hall as [Hall H4]. apply andb_prop in Hall as [Hall H3].
  apply andb_prop in Hall as [H1 H2].
  apply Bool.eqb_prop in H1. apply Z.eqb_eq in H2. apply Bool.eqb_prop in H3. apply Z.eqb_eq in H4.
  split; [exact H1|]. split; [exact H2|].
  destruct (decode_perm _); simpl in *; subst; reflexivity.
Qed.

(** Two modes print the same permission string exactly when they agree on
    the directory type and on the nine permission bits (mask 0777); the
    string is always 10 characters long. *)
Theorem get_permissions_string_faithful (m1 m2 : Z) :
  (get_permissions_string m1 = get_permissions_string m2 <->
   is_dir_mode m1 = is_dir_mode m2 /\ Z.land m1 511 = Z.land m2 511) /\
  String.length (get_permissions_string m1) = 10%nat.
Proof.
  split; [|unfold get_permissions_string, perm_char;
           destruct (is_dir_mode m1), (Z.land m1 256 =? 0), (Z.land m1 128 =? 0),
             (Z.land m1 64 =? 0), (Z.land m1 32 =? 0), (Z.land m1 16 =? 0),
             (Z.land m1 8 =? 0), (Z.land m1 4 =? 0), (Z.land m1 2 =? 0), (Z.land m1 1 =? 0);
           reflexivity].
  assert (Hr : forall m, 0 <= Z.land m 511 < 512).
  { intros m. change 511 with (Z.ones 9). rewrite Z.land_ones by lia.
    apply Z.mod_pos_bound. reflexivity. }
  split.
  - intros E.
    destruct (perm_representative (is_dir_mode m1) (Z.land m1 511) (Hr m1)) as (A1 & B1 & C1).
    destruct (perm_representative (is_dir_mode m2) (Z.land m2 511) (Hr m2)) as (A2 & B2 & C2).
    rewrite (get_permissions_string_low _ m1) in C1 by assumption.
    rewrite (get_permissions_string_low _ m2) in C2 by assumption.
    rewrite E, C2 in C1. injection C1; intros; split; congruence.
  - intros [Hd Hl]. apply get_permissions_string_low; assumption.
Qed.

(* ------------------------------------------------------------------ *)
(** ** The shape of a canonical path *)

Lemma no_double_slash_noslash_app (t l : list ascii) :
  no_slash t -> no_double_slash (t ++ l) = no_double_slash l.
Proof.
  induction t as [|c t IH]; intros H; [reflexivity|].
  inversion H as [|? ? Hc Ht]; subst. specialize (IH Ht).
  change ((c :: t) ++ l) with (c :: (t ++ l)).
  destruct (t ++ l) as [|d r] eqn:E.
  - apply app_eq_nil in E as [_ ->]. reflexivity.
  - rewrite <- IH. cbn [no_double_slash]. rewrite Hc. reflexivity.
Qed.

Lemma no_double_slash_join (ts : list (list ascii)) :
  Forall (fun t => t <> [] /\ no_slash t) ts ->
  no_double_slash (join_slash ts) = true /\
  (join_slash ts = [] \/ exists c r, join_slash ts = c :: r /\ is_slash c = false).
Proof.
  induction ts as [|t rs IH]; intros H; [split; [reflexivity | left; reflexivity]|].
  inversion H as [|? ? [Hne Hns] Hr]; subst. specialize (IH Hr) as [IH1 IH2].
  assert (Hhead : exists c r, join_slash (t :: rs) = c :: r /\ is_slash c = false).
  { destruct t as [|c t']; [congruence|]. inversion Hns; subst.
    exists c. eexists. split; [reflexivity | assumption]. }
  split; [|right; exact Hhead].
  destruct rs as [|t' rs'].
  - simpl. rewrite app_nil_r, <- (app_nil_r t). rewrite no_double_slash_noslash_app by exact Hns.
    reflexivity.
  - change (join_slash (t :: t' :: rs')) with (t ++ "/"%char :: join_slash (t' :: rs')).
    rewrite no_double_slash_noslash_app by exact Hns.
    destruct IH2 as [E | (c & r & E & Hc)].
    + apply join_slash_nil in E; [discriminate|].
      eapply Forall_impl; [|exact Hr]. intros a [A _]; exact A.
    + rewrite E in IH1 |- *.
      change (no_double_slash ("/"%char :: c :: r))
        with (negb (is_slash "/"%char && is_slash c) && no_double_slash (c :: r)).
      rewrite Hc, IH1. reflexivity.
Qed.

(** [canonicalize_path] returns ["/"] followed by the components of its
    input (the maximal runs of non-['/'] characters) joined by single
    ['/']: the result has the input's components, contains no NUL and no
    ["//"], and ends in ['/'] only when it is ["/"]. *)
Theorem canonicalize_path_shape (p : list ascii) :
  let c := canonicalize_path_l p in
  c = "/"%char :: join_slash (map fst (tokenize (c_str p))) /\
  map fst (tokenize (c_str c)) = map fst (tokenize (c_str p)) /\
  no_nul c /\
  no_double_slash c = true /\
  (c = ["/"%char] \/ is_slash (last c "/"%char) = false).
Proof.
  intros c. unfold c. rewrite (canonicalize_path_l_form p).
  set (ts := map fst (tokenize (c_str p))).
  destruct (tokens_wf (c_str p)) as [Hwf Hin]. fold ts in Hwf, Hin.
  assert (Hnn : no_nul ("/"%char :: join_slash ts)).
  { intros x [<-|Hx]; [reflexivity|].
    apply join_slash_chars in Hx as [->|(t & Ht & Hx)]; [reflexivity|].
    apply (c_str_no_nul p). exact (Hin t x Ht Hx). }
  split; [reflexivity|]. split.
  { rewrite c_str_id by exact Hnn.
    unfold tokenize. rewrite strtok_loop_slash.
    apply strtok_join; [exact Hwf | simpl; lia]. }
  split; [exact Hnn|].
  destruct (no_double_slash_join ts Hwf) as [H1 [E | (x & r & E & Hx)]].
  - rewrite E. split; [reflexivity | left; reflexivity].
  - split.
    + rewrite E in H1 |- *.
      change (no_double_slash ("/"%char :: x :: r))
        with (negb (is_slash "/"%char && is_slash x) && no_double_slash (x :: r)).
      rewrite Hx, H1. reflexivity.
    + right. rewrite last_cons_ne by (rewrite E; discriminate).
      apply join_slash_last; [|exact Hwf].
      intros Hts. rewrite Hts in E. discriminate.
Qed.

Lemma take_token_sep (l : list ascii) :
  let '(t, r) := take_token l in
  r <> [] -> (List.length t + List.length r + 1 <= List.length l)%nat.
Proof.
  induction l as [|c l IH]; simpl; [congruence|].
  destruct (is_slash c); [simpl in *; lia|].
  destruct (take_token l) as [t r]. simpl. intros H. specialize (IH H). lia.
Qed.

Lemma strtok_r_sep (l t r : list ascii) :
  strtok_r l = Some (t, r) ->
  (List.length t + List.length r <= List.length l)%nat /\
  (r <> [] -> (List.length t + List.length r + 1 <= List.length l)%nat).
Proof.
  unfold strtok_r. pose proof (skip_delims_length l) as Hl.
  destruct (skip_delims l) as [|c l'] eqn:Es; [discriminate|].
  intros H; injection H; clear H; intros Ht.
  change (take_token (c :: l') = (t, r)) in Ht.
  pose proof (take_token_props (c :: l')) as Hp. rewrite Ht in Hp.
  pose proof (take_token_sep (c :: l')) as Hs. rewrite Ht in Hs.
  destruct Hp as (_ & H2 & _). split; [lia|]. intros Hr. specialize (Hs Hr). lia.
Qed.

Lemma join_slash_strtok_length (n : nat) (l : list ascii) :
  (List.length (join_slash (map fst (strtok_loop n l))) <= List.length l)%nat.
Proof.
  revert l; induction n as [|n IH]; intros l; simpl; [lia|].
  destruct (strtok_r l) as [[t r]|] eqn:E; simpl; [|lia].
  apply strtok_r_sep in E as [E1 E2].
  destruct n as [|n']; simpl; [rewrite app_nil_r; lia|].
  destruct (strtok_r r) as [[t' r']|] eqn:E'; simpl.
  - assert (Hr : r <> []) by (intros ->; discriminate E').
    specialize (E2 Hr). specialize (IH r). simpl in IH. rewrite E' in IH. simpl in IH.
    rewrite length_app. simpl. lia.
  - rewrite app_nil_r. lia.
Qed.

(** [canonicalize_path] never overruns its buffer: the leading slash, the
    tokens, their separators and the terminating NUL take at most
    [strlen(path) + 2] bytes, the size of [new_path]; the result is at least
    one and at most [strlen(path) + 1] characters long. *)
Theorem canonicalize_path_fits_buffer (p : list ascii) :
  (1 + List.length (join_slash (map fst (tokenize (c_str p)))) + 1
     <= List.length (c_str p) + 2)%nat /\
  (1 <= List.length (canonicalize_path_l p) <= List.length (c_str p) + 1)%nat.
Proof.
  unfold canonicalize_path_l, tokenize.
  remember (c_str p) as cp eqn:E. clear E.
  pose proof (join_slash_strtok_length (List.length cp) cp) as H.
  remember (join_slash (map fst (strtok_loop (List.length cp) cp))) as J eqn:EJ.
  split; [lia|].
  destruct cp as [|c l]; [simpl; lia|]. cbv zeta iota.
  destruct (list_ascii_eqb _ _); [simpl in *; lia|].
  destruct (_ && _) eqn:Hb; [|simpl in *; lia].
  apply andb_true_iff in Hb as [Hb _]. apply Nat.ltb_lt in Hb.
  rewrite removelast_firstn_len, length_firstn. simpl in *. lia.
Qed.


(* ------------------------------------------------------------------ *)

Lemma find_entry_long (buf token : list Z) (bs : Z) (js : list Z) :
  (60 < List.length token)%nat ->
  match find_entry buf token bs js with Returns t => t = 0 | _ => True end.
Proof.
  intros Hl. induction js as [|j js IH]; simpl; [reflexivity|].
  destruct (bs <? j * DIR_ENTRY_SIZE + 4); [exact I|].
  destruct (entry_inode buf j =? 0); [exact IH|].
  destruct (bs <? _); [exact I|].
  unfold name_matches. replace (60 <? Z.of_nat (List.length token)) with true
    by (symmetry; apply Z.ltb_lt; lia).
  exact IH.
Qed.

Lemma scan_dir_long (st : fs_state) (d : minix_inode_t) (token : list Z) :
  (60 < List.length token)%nat ->
  match scan_dir st d token with Returns (t, _) => t = 0 | _ => True end.
Proof.
  intros Hl. unfold scan_dir.
  destruct (loop_u32_invariant (fun _ => True)
              (fun o => match o with Returns (t, _) => t = 0 | _ => True end)
              (scan_step st d token) (0, [])) as [Hd|Hq].
  - intros [i evs] _. unfold scan_step. cbv zeta.
    destruct (negb _); [reflexivity|].
    destruct (get_file_blk_d st d i) as [[blk e1]| |]; [|exact I|exact I].
    destruct (blk =? 0); [exact I|].
    destruct (_ =? 0); [exact I|].
    destruct (read_fs_bytes_d st (blk * blocksize (curr_sb st)) (blocksize (curr_sb st)))
      as [[buf|] e2]; [|exact I].
    pose proof (find_entry_long buf token (blocksize (curr_sb st))
                  (resolve_slots (blocksize (curr_sb st))) Hl) as Hf.
    destruct (find_entry _ _ _ _) as [t| |]; [|exact I|exact I].
    subst t. reflexivity.
  - exact I.
  - rewrite Hd. exact I.
  - exact Hq.
Qed.

Lemma resolve_components_long (st : fs_state) (cp : list ascii)
  (toks : list (list ascii * list ascii)) (n : Z) (t : list ascii) :
  In t (map fst toks) -> (60 < List.length t)%nat ->
  match resolve_components st cp n toks with
  | Returns (x, _) => x = 0
  | _ => True
  end.
Proof.
  intros Hin Hl. revert n. induction toks as [|[token nts] toks IH]; intros n;
    [destruct Hin|].
  simpl. destruct (read_inode_d st n) as [[d|] e0]; [|reflexivity].
  destruct Hin as [Ht|Hin].
  - simpl in Ht. subst token.
    assert (Hb : (60 < List.length (bytes_of t))%nat) by (unfold bytes_of; rewrite length_map; exact Hl).
    pose proof (scan_dir_long st d (bytes_of t) Hb) as Hs.
    destruct (scan_dir st d (bytes_of t)) as [[x e1]| |]; [|exact I|exact I].
    subst x. reflexivity.
  - destruct (scan_dir st d (bytes_of token)) as [[x e1]| |]; [|exact I|exact I].
    destruct (x =? 0); [reflexivity|].
    destruct (read_inode_d st x) as [[td|] e2]; [|reflexivity].
    destruct (_ && _); [reflexivity|].
    specialize (IH Hin x).
    destruct (resolve_components st cp x toks) as [[y e3]| |]; [|exact I|exact I].
    exact IH.
Qed.

(** A path with a component longer than 60 characters (the size of a
    directory entry name) is never found: [get_inode_by_path] returns 0
    whenever it returns without undefined behaviour. *)
Theorem get_inode_by_path_long_component (st : fs_state) (p t : list ascii) :
  no_nul p -> (List.length p <= 1023)%nat ->
  In t (map fst (tokenize p)) -> (60 < List.length t)%nat ->
  match get_inode_by_path st ("/"%char :: p) with
  | Returns (x, _) => x = 0
  | _ => True
  end.
Proof.
  intros Hnn Hlen Hin Hl.
  assert (Hne : p <> []) by (intros ->; destruct Hin).
  rewrite get_inode_by_path_tokens by assumption.
  eapply resolve_components_long; eassumption.
Qed.

Lemma get_inode_by_path_long_component_witness :
  get_inode_by_path st1 ("/"%char :: repeat "a"%char 61) = Returns (0, []) /\
  match get_inode_by_path st1 ("/"%char :: repeat "a"%char 61) with
  | Returns (x, _) => x = 0
  | _ => True
  end.
Proof.
  split; [vm_compute; reflexivity|].
  apply (get_inode_by_path_long_component st1 (repeat "a"%char 61) (repeat "a"%char 61)).
  - intros c Hc. apply repeat_spec in Hc. subst c. reflexivity.
  - simpl; lia.
  - vm_compute. left; reflexivity.
  - simpl; lia.
Defined.

(* ------------------------------------------------------------------ *)
(** ** Listing *)

Lemma read_inode_d_msgs_length (st : fs_state) (n : Z) :
  (List.length (snd (read_inode_d st n)) <= 1)%nat.
Proof.
  rewrite read_inode_d_eq. cbv zeta.
  destruct (_ || _); [simpl; lia|].
  match goal with |- context [read_fs_bytes_d st ?o ?k] =>
    pose proof (read_fs_bytes_msgs st o k) as H; destruct (read_fs_bytes_d st o k) as [[b|] e] end;
    simpl.
  - subst e. simpl. lia.
  - destruct H as [->|[m ->]]; simpl; lia.
Qed.

(** In list mode the entry loop over a directory block handles the slots
    with a nonzero inode number, in order, each with [list_single_entry],
    and skips the others; [list_single_entry] prints exactly one line,
    preceded only by at most one message of [read_fs_bytes] (none unless
    verbose).  So, unless verbose, one line per in-use slot. *)
Theorem list_block_entries_one_line_each (st : fs_state) (buf : list Z) (js : list Z) :
  list_block_entries st buf js =
    flat_map (fun j => list_single_entry st (entry_inode buf j)
                         (string_of_bytes (dir_entry_name (entry_name buf j))))
             (filter (fun j => negb (entry_inode buf j =? 0)) js) /\
  (forall n name, exists pre line, list_single_entry st n name = pre ++ [line] /\
     (List.length pre <= 1)%nat /\ fs_diag st pre) /\
  (verbose st = 0 ->
   List.length (list_block_entries st buf js) =
   List.length (filter (fun j => negb (entry_inode buf j =? 0)) js)).
Proof.
  assert (Hsingle : forall n name, exists pre line, list_single_entry st n name = pre ++ [line] /\
     (List.length pre <= 1)%nat /\ fs_diag st pre).
  { intros n name. unfold list_single_entry.
    pose proof (read_inode_d_diag st n) as D. pose proof (read_inode_d_msgs_length st n) as L.
    destruct (read_inode_d st n) as [[d|] e]; simpl in D, L; eexists e, _;
      split; [reflexivity | split; assumption| reflexivity | split; assumption]. }
  split; [|split; [exact Hsingle|]].
  - induction js as [|j js IH]; simpl; [reflexivity|].
    destruct (entry_inode buf j =? 0); simpl; [exact IH|]. rewrite IH. reflexivity.
  - intros Hv. induction js as [|j js IH]; simpl; [reflexivity|].
    destruct (entry_inode buf j =? 0); simpl; [exact IH|].
    rewrite length_app, IH.
    destruct (Hsingle (entry_inode buf j) (string_of_bytes (dir_entry_name (entry_name buf j))))
      as (pre & line & -> & _ & [_ Hq]).
    rewrite (Hq Hv). reflexivity.
Qed.

(** [list_directory_contents] returns -1 when the inode cannot be read,
    after the messages of [read_fs_bytes] (none unless verbose) and one
    [Failed to read directory inode] line.  Otherwise its output starts
    with the header [path:], also when the inode is not a directory, and,
    when it returns without undefined behaviour, it returns 0 exactly when
    the inode is a directory, and -1 otherwise. *)
Theorem list_directory_contents_status (st : fs_state) (n : Z) (path : string) :
  match list_directory_contents st n path with
  | Returns (status, evs) =>
      match read_inode st n with
      | None => status = -1 /\
                exists pre, evs = pre ++
                  [Err ("minls: Failed to read directory inode " ++ fmt_u n ++ "." ++ nl)%string] /\
                fs_diag st pre
      | Some d =>
          (exists rest, evs = Out (path ++ ":" ++ nl)%string :: rest) /\
          (status = 0 <-> is_dir_mode (mode d) = true) /\
          (status = 0 \/ status = -1)
      end
  | _ => True
  end.
Proof.
  unfold list_directory_contents, read_inode.
  pose proof (read_inode_d_diag st n) as D.
  destruct (read_inode_d st n) as [[d|] e] eqn:Ed; cbn [snd] in D;
    cbv beta iota zeta delta [fst].
  2:{ split; [reflexivity|]. exists e. split; [reflexivity | exact D]. }
  assert (He : e = []).
  { pose proof (read_inode_d_some st n d) as H. unfold read_inode in H.
    rewrite Ed in H. specialize (H eq_refl). injection H as ->. reflexivity. }
  subst e. rewrite app_nil_l.
  destruct (is_dir_mode (mode d)) eqn:Edir; cbn [negb].
  - destruct (loop_u32_invariant
                (fun s : Z * list event => exists rest, snd s = Out (path ++ ":" ++ nl)%string :: rest)
                (fun o => match o with
                          | Returns evs => exists rest, evs = Out (path ++ ":" ++ nl)%string :: rest
                          | _ => True end)
                (list_step st d) (0, [Out (path ++ ":" ++ nl)%string])) as [Hd|Hq].
    + intros [i e] [rest Hr]. cbn [snd] in Hr. subst e. unfold list_step. cbv zeta.
      destruct (negb _); [exists rest; reflexivity|].
      destruct (get_file_blk_d st d i) as [[blk e1]| |]; [|exact I|exact I].
      destruct (blk =? 0); [exists (rest ++ e1); reflexivity|].
      destruct (_ =? 0); [exact I|].
      destruct (read_fs_bytes_d st (blk * blocksize (curr_sb st)) (blocksize (curr_sb st)))
        as [[buf|] e2]; eexists; reflexivity.
    + exists []; reflexivity.
    + rewrite Hd. exact I.
    + destruct (loop_u32 (list_step st d) _) as [evs| |]; [|exact I|exact I].
      split; [exact Hq | split; [split; reflexivity | left; reflexivity]].
  - split; [eexists; reflexivity|]. split; [split; discriminate | right; reflexivity].
Qed.

(* ------------------------------------------------------------------ *)
(** ** When the block loops end *)

Lemma read_table_not_diverges (st : fs_state) (z cap : Z) : read_table st z cap <> Diverges.
Proof. destruct (read_table_cases st z cap) as [[E _]|E]; rewrite E; discriminate. Qed.

Lemma get_file_blk_d_not_diverges (st : fs_state) (ino : minix_inode_t) (L : Z) :
  get_file_blk_d st ino L <> Diverges.
Proof.
  destruct (Z_le_gt_dec 0 (log_zone_size (curr_sb st))) as [H0|H0];
    [destruct (Z_lt_ge_dec (log_zone_size (curr_sb st)) 32) as [H1|H1]|].
  - rewrite (get_file_blk_d_eq st ino L (conj H0 H1)). cbv zeta.
    repeat (first
      [ discriminate
      | match goal with
        | |- context [if ?c then _ else _] => destruct c
        | |- context [match read_table ?s ?z ?p with _ => _ end] =>
            let E := fresh "E" in
            destruct (read_table s z p) as [[[?t|] ?e0]| |] eqn:E;
            [| |exfalso; exact (read_table_not_diverges _ _ _ E)|]
        end ]).
  - unfold get_file_blk_d.
    replace ((log_zone_size (curr_sb st) <? 0) || (31 <? log_zone_size (curr_sb st))) with true
      by (symmetry; apply orb_true_iff; right; apply Z.ltb_lt; lia).
    discriminate.
  - unfold get_file_blk_d.
    replace ((log_zone_size (curr_sb st) <? 0) || (31 <? log_zone_size (curr_sb st))) with true
      by (symmetry; apply orb_true_iff; left; apply Z.ltb_lt; lia).
    discriminate.
Qed.

Lemma find_entry_not_diverges (buf token : list Z) (bs : Z) (js : list Z) :
  find_entry buf token bs js <> Diverges.
Proof.
  induction js as [|j js IH]; simpl; [discriminate|].
  destruct (_ <? _); [discriminate|]. destruct (_ =? 0); [exact IH|].
  destruct (_ <? _); [discriminate|]. destruct (name_matches _ _); [discriminate|exact IH].
Qed.

Lemma iter_pos_count {A B : Type} (Inv : A -> Prop) (Q : B -> Prop) (cnt : A -> Z) (K : Z)
  (f : A -> A + B) (p : positive) (a : A) :
  (forall a, Inv a -> match f a with
                      | inl a' => Inv a' /\ cnt a' = cnt a + 1 /\ cnt a' <= K
                      | inr b => Q b end) ->
  Inv a ->
  match iter_pos p f a with
  | inl a' => Inv a' /\ cnt a' = cnt a + Zpos p /\ cnt a' <= K
  | inr b => Q b
  end.
Proof.
  intros Hf. revert a. induction p as [q IH|q IH|]; intros a Ha; simpl.
  - pose proof (Hf a Ha) as H0. destruct (f a) as [a1|b]; [|exact H0].
    destruct H0 as (H0 & C0 & _).
    pose proof (IH a1 H0) as H1. destruct (iter_pos q f a1) as [a2|b]; [|exact H1].
    destruct H1 as (H1 & C1 & _).
    pose proof (IH a2 H1) as H2. destruct (iter_pos q f a2) as [a'|b]; [|exact H2].
    destruct H2 as (H2 & C2 & K2). split; [exact H2|]. split; [lia | exact K2].
  - pose proof (IH a Ha) as H1. destruct (iter_pos q f a) as [a1|b]; [|exact H1].
    destruct H1 as (H1 & C1 & _).
    pose proof (IH a1 H1) as H2. destruct (iter_pos q f a1) as [a'|b]; [|exact H2].
    destruct H2 as (H2 & C2 & K2). split; [exact H2|]. split; [lia | exact K2].
  - pose proof (Hf a Ha) as H0. destruct (f a) as [a'|b]; [|exact H0].
    destruct H0 as (H0 & C0 & K0). split; [exact H0|]. split; [lia | exact K0].
Qed.

(** A loop whose counter starts at 0, grows by one per iteration, never
    exceeds [K < 2^32], and which never leaves with [Diverges], ends. *)
Lemma loop_u32_ends {A B : Type} (Inv : A -> Prop) (cnt : A -> Z) (K : Z)
  (f : A -> A + outcome B) (a : A) :
  (forall a, Inv a -> match f a with
                      | inl a' => Inv a' /\ cnt a' = cnt a + 1 /\ cnt a' <= K
                      | inr o => o <> Diverges end) ->
  Inv a -> cnt a = 0 -> K < 2 ^ 32 -> loop_u32 f a <> Diverges.
Proof.
  intros Hf Ha H0 HK. unfold loop_u32.
  pose proof (iter_pos_count Inv (fun o => o <> Diverges) cnt K f (2 ^ 32)%positive a Hf Ha) as H.
  destruct (iter_pos _ f a) as [a'|b]; [|exact H].
  destruct H as (_ & C & K'). rewrite H0 in C. change (Zpos (2 ^ 32)) with (2 ^ 32) in C. lia.
Qed.

(** The number of blocks the loops visit: [ceil(size / blocksize)]. *)
Lemma ceil_blocks (size bs : Z) :
  0 < bs -> 0 <= size ->
  let K := (size + bs - 1) / bs in
  size <= K * bs <= size + bs - 1 /\ (forall i, 0 <= i < K -> i * bs < size) /\ 0 <= K.
Proof.
  intros Hbs Hs K.
  pose proof (Z.mul_div_le (size + bs - 1) bs Hbs) as A.
  pose proof (Z.mul_succ_div_gt (size + bs - 1) bs Hbs) as B.
  fold K in A, B.
  assert (0 <= K) by (apply Z.div_pos; lia).
  split; [nia|]. split; [intros i Hi; nia | lia].
Qed.

(** If the block size is positive and [size + blocksize <= 2^32], the block
    loops of path resolution and of listing never run forever: after
    [ceil(size / blocksize)] blocks the 32-bit product [i * blocksize]
    reaches the size without wrapping (each loop ends earlier if it finds
    its entry or meets undefined behaviour). *)
Theorem dir_block_loops_end (st : fs_state) (d : minix_inode_t) :
  0 < blocksize (curr_sb st) -> 0 <= size d -> size d + blocksize (curr_sb st) <= 2 ^ 32 ->
  (forall token, scan_dir st d token <> Diverges) /\
  (forall n path, read_inode st n = Some d -> list_directory_contents st n path <> Diverges).
Proof.
  intros Hbs Hs Hsum.
  set (bs := blocksize (curr_sb st)) in *.
  destruct (ceil_blocks (size d) bs Hbs Hs) as ((A1 & A2) & Hlt & HK0).
  set (K := (size d + bs - 1) / bs) in *.
  assert (HK : K < 2 ^ 32) by nia.
  assert (Hend : (u32 (K * bs) <? size d) = false).
  { unfold u32. rewrite Z.mod_small by nia. apply Z.ltb_ge; lia. }
  assert (Hin : forall i, 0 <= i < K -> (u32 (i * bs) <? size d) = true).
  { intros i Hi. specialize (Hlt i Hi). unfold u32. rewrite Z.mod_small by nia.
    apply Z.ltb_lt; exact Hlt. }
  assert (Hnext : forall i, 0 <= i < K -> u32 (i + 1) = i + 1).
  { intros i Hi. unfold u32. apply Z.mod_small. lia. }
  split.
  - intros token. unfold scan_dir.
    apply (loop_u32_ends (fun s => 0 <= fst s <= K) fst K); [|cbn [fst]; lia|reflexivity|exact HK].
    intros [i evs] Hi. cbn [fst] in Hi. unfold scan_step. cbv beta iota zeta. fold bs.
    destruct (Z.eq_dec i K) as [->|Hne]; [rewrite Hend; discriminate|].
    rewrite Hin by lia. cbn [negb]. rewrite Hnext by lia.
    destruct (get_file_blk_d st d i) as [[blk e1]| |] eqn:EG;
      [|exfalso; exact (get_file_blk_d_not_diverges _ _ _ EG)|discriminate].
    destruct (blk =? 0); [cbn [fst]; lia|].
    destruct (bs =? 0); [discriminate|].
    destruct (read_fs_bytes_d st (blk * bs) bs) as [[buf|] e2]; [|cbn [fst]; lia].
    destruct (find_entry buf token bs (resolve_slots bs)) as [t| |] eqn:EF;
      [|exfalso; exact (find_entry_not_diverges _ _ _ _ EF)|discriminate].
    destruct (t =? 0); [cbn [fst]; lia | discriminate].
  - intros n path Hd. unfold list_directory_contents.
    rewrite (read_inode_d_some st n d Hd). cbv beta iota zeta.
    destruct (negb (is_dir_mode (mode d))); [discriminate|].
    assert (Hl : loop_u32 (list_step st d) (0, [] ++ [Out (path ++ ":" ++ nl)%string]) <> Diverges).
    { apply (loop_u32_ends (fun s => 0 <= fst s <= K) fst K); [|cbn [fst]; lia|reflexivity|exact HK].
      intros [i evs] Hi. cbn [fst] in Hi. unfold list_step. cbv beta iota zeta. fold bs.
      destruct (Z.eq_dec i K) as [->|Hne]; [rewrite Hend; discriminate|].
      rewrite Hin by lia. cbn [negb]. rewrite Hnext by lia.
      destruct (get_file_blk_d st d i) as [[blk e1]| |] eqn:EG;
        [|exfalso; exact (get_file_blk_d_not_diverges _ _ _ EG)|discriminate].
      destruct (blk =? 0); [cbn [fst]; lia|].
      destruct (bs =? 0); [discriminate|].
      destruct (read_fs_bytes_d st (blk * bs) bs) as [[buf|] e2]; cbn [fst]; lia. }
    destruct (loop_u32 (list_step st d) _); [discriminate | exfalso; exact (Hl eq_refl) | discriminate].
Qed.

Lemma dir_block_loops_end_witness :
  scan_dir st1 img1_root [97] <> Diverges /\ list_directory_contents st1 1 "/" <> Diverges.
Proof.
  pose proof (dir_block_loops_end st1 img1_root ltac:(zcheck) ltac:(zcheck) ltac:(zcheck))
    as [H1 H2].
  split; [apply H1 | apply H2; zcheck].
Defined.

Lemma nth_all_zero (l : list Z) (k : nat) :
  Forall (fun z => z = 0) l -> nth k l 0 = 0.
Proof.
  intros H. revert k. induction H as [|x l Hx _ IH]; intros [|k]; simpl; auto.
Qed.

Lemma get_file_blk_no_zones (st : fs_state) (d : minix_inode_t) (L : Z) :
  0 <= log_zone_size (curr_sb st) < 32 ->
  Forall (fun z => z = 0) (zone d) -> indirect d = 0 -> two_indirect d = 0 ->
  get_file_blk_d st d L = Returns (0, []).
Proof.
  intros Hlz Hz Hi Hd. rewrite (get_file_blk_d_eq st d L Hlz). cbv zeta. rewrite Hi, Hd.
  destruct (_ <? 7); [rewrite nth_all_zero by exact Hz; reflexivity|].
  destruct (_ <? 7 + _); reflexivity.
Qed.

Lemma tokenize_cons_nonslash (c : ascii) (l : list ascii) :
  is_slash c = false -> exists tok r toks, tokenize (c :: l) = (tok, r) :: toks.
Proof.
  intros Hc. unfold tokenize. cbn [List.length strtok_loop]. unfold strtok_r.
  cbn [skip_delims]. rewrite Hc.
  destruct (take_token (c :: l)) as [tok r]. eexists tok, r, _. reflexivity.
Qed.

(** For a canonical path other than ["/"], [get_inode_by_path] walks a
    nonempty list of components from the root. *)
Lemma get_inode_by_path_canonical (st : fs_state) (p : list ascii) :
  canonicalize_path_l p <> ["/"%char] ->
  exists cp tok r toks,
    get_inode_by_path st (canonicalize_path_l p) = resolve_components st cp 1 ((tok, r) :: toks).
Proof.
  rewrite canonicalize_path_l_form.
  destruct (tokens_wf (c_str p)) as [Hwf Hin].
  set (ts := map fst (tokenize (c_str p))) in *.
  destruct ts as [|t ts'] eqn:Ets; [intros H; exfalso; apply H; reflexivity|].
  intros _. inversion Hwf as [|t0 ts0 [Htne Htns] _]; subst t0 ts0.
  destruct t as [|c t']; [congruence|].
  inversion Htns as [|c0 t0 Hc _]; subst c0 t0.
  assert (Hn : Ascii.eqb c "000"%char = false).
  { apply (c_str_no_nul p). apply (Hin (c :: t')); [left; reflexivity | left; reflexivity]. }
  set (rest := t' ++ match ts' with [] => [] | _ :: _ => "/"%char :: join_slash ts' end).
  change (join_slash ((c :: t') :: ts')) with (c :: rest).
  unfold get_inode_by_path. cbv zeta.
  cbn [c_str]. rewrite Hn. change (Ascii.eqb "/"%char "000"%char) with false. cbv iota.
  rewrite list_ascii_eqb_slash_cons. cbn [tl].
  change (firstn 1023 (c :: c_str rest)) with (c :: firstn 1022 (c_str rest)).
  cbn [c_str]. rewrite Hn.
  destruct (tokenize_cons_nonslash c (c_str (firstn 1022 (c_str rest))) Hc) as (tok & r & toks & E).
  rewrite E. eexists _, tok, r, toks. reflexivity.
Qed.

(** A directory without blocks whose size exceeds [2^32 - blocksize], with
    a block size dividing [2^32] (and a defined [1 << log_zone_size]),
    makes both block loops run forever: the 32-bit product [i * blocksize]
    wraps around before reaching the size.  With such a root, resolving any
    path whose canonical form is not ["/"] never returns. *)
Theorem dir_block_loops_diverge (st : fs_state) (d : minix_inode_t) :
  0 < blocksize (curr_sb st) -> 2 ^ 32 mod blocksize (curr_sb st) = 0 ->
  0 <= log_zone_size (curr_sb st) < 32 ->
  2 ^ 32 - blocksize (curr_sb st) < size d ->
  Forall (fun z => z = 0) (zone d) -> indirect d = 0 -> two_indirect d = 0 ->
  (forall token, scan_dir st d token = Diverges) /\
  (forall n path, read_inode st n = Some d -> is_dir_mode (mode d) = true ->
     list_directory_contents st n path = Diverges) /\
  (read_inode st 1 = Some d -> forall p, canonicalize_path_l p <> ["/"%char] ->
     get_inode_by_path st (canonicalize_path_l p) = Diverges).
Proof.
  intros Hbs Hdiv Hlz Hsize Hz Hi Hd.
  set (bs := blocksize (curr_sb st)) in *.
  assert (Hq : 2 ^ 32 = bs * (2 ^ 32 / bs)) by (apply Z.div_exact; lia).
  set (q := 2 ^ 32 / bs) in *.
  assert (Hq1 : 1 <= q) by nia.
  assert (Hcond : forall i, (u32 (i * bs) <? size d) = true).
  { intros i. apply Z.ltb_lt. unfold u32. rewrite Hq, (Z.mul_comm i bs).
    rewrite Z.mul_mod_distr_l by lia.
    pose proof (Z.mod_pos_bound i q ltac:(lia)). nia. }
  assert (Hblk : forall i, get_file_blk_d st d i = Returns (0, []))
    by (intros i; apply get_file_blk_no_zones; assumption).
  assert (Hscan : forall token, scan_dir st d token = Diverges).
  { intros token. unfold scan_dir, loop_u32.
    pose proof (iter_pos_invariant (fun _ : Z * list event => True)
                  (fun _ : outcome (Z * list event) => False)
                  (scan_step st d token) (2 ^ 32)%positive (0, [])) as H.
    destruct (iter_pos _ _ _); [reflexivity|]. exfalso. apply H; [|exact I].
    intros [i evs] _. unfold scan_step. cbv beta iota zeta. fold bs.
    rewrite Hcond, Hblk. exact I. }
  split; [exact Hscan|]. split.
  - intros n path Hn Hdir. unfold list_directory_contents.
    rewrite (read_inode_d_some st n d Hn). cbv beta iota zeta. rewrite Hdir. cbn [negb].
    unfold loop_u32.
    pose proof (iter_pos_invariant (fun _ : Z * list event => True)
                  (fun _ : outcome (list event) => False)
                  (list_step st d) (2 ^ 32)%positive (0, [] ++ [Out (path ++ ":" ++ nl)%string])) as H.
    destruct (iter_pos _ _ _); [reflexivity|]. exfalso. apply H; [|exact I].
    intros [i evs] _. unfold list_step. cbv beta iota zeta. fold bs.
    rewrite Hcond, Hblk. exact I.
  - intros H1 p Hp.
    destruct (get_inode_by_path_canonical st p Hp) as (cp & tok & r & toks & ->).
    cbn [resolve_components]. rewrite (read_inode_d_some st 1 d H1).
    cbv beta iota. rewrite Hscan. reflexivity.
Qed.

Lemma dir_block_loops_diverge_witness :
  get_inode_by_path st_huge (canonicalize_path_l ["a"%char]) = Diverges.
Proof.
  refine (proj2 (proj2 (dir_block_loops_diverge st_huge huge_root _ _ _ _ _ _ _))
            _ ["a"%char] _);
    first [ solve [zcheck]
          | solve [vm_compute; repeat constructor]
          | solve [vm_compute; discriminate] ].
Defined.

(* ------------------------------------------------------------------ *)
(** ** Diagnostics of partition lookup and initialisation *)

Lemma get_partition_start_d_spec (image : list Z) (k a : Z) :
  fst (get_partition_start_d image k a) = get_partition_start image k a /\
  (List.length (snd (get_partition_start_d image k a)) <= 1)%nat /\
  (snd (get_partition_start_d image k a) = [] <->
   exists mbr, read_at image (a - PARTITION_TABLE_OFFSET) SECTOR_SIZE = Some mbr /\
     mbr_signature_ok mbr /\ 0 <= k < 4 /\ part_type mbr k = 129).
Proof.
  unfold get_partition_start, read_mbr_and_check_magic, get_partition_start_d,
    read_mbr_and_check_magic_d, mbr_signature_ok, part_type.
  destruct (a - PARTITION_TABLE_OFFSET <? 0) eqn:Eneg.
  { rewrite read_at_neg by (apply Z.ltb_lt; exact Eneg). cbn [fst snd negb andb orb List.length].
    split; [reflexivity|]. split; [lia|]. split; [discriminate|].
    intros (mbr & H & _). discriminate. }
  destruct (read_at image (a - PARTITION_TABLE_OFFSET) SECTOR_SIZE) as [mbr|] eqn:Er.
  2:{ cbn [fst snd negb andb orb List.length]. split; [reflexivity|]. split; [lia|]. split; [discriminate|].
      intros (mbr & H & _). discriminate. }
  destruct (byte_at mbr 510 =? 85) eqn:E1; destruct (byte_at mbr 511 =? 170) eqn:E2; cbn [fst snd negb andb orb List.length].
  all: try (split; [reflexivity|]; split; [lia|]; split; [discriminate|];
            intros (m & H & [S1 S2] & _); injection H; intros <-;
            apply Z.eqb_neq in E1 || apply Z.eqb_neq in E2; congruence).
  apply Z.eqb_eq in E1, E2.
  destruct ((k <? 0) || (4 <=? k)) eqn:Ek; cbn [fst snd negb andb orb List.length].
  { split; [reflexivity|]. split; [lia|]. split; [discriminate|].
    intros (m & H & _ & Hk & _). apply orb_true_iff in Ek as [Ek|Ek];
      [apply Z.ltb_lt in Ek | apply Z.leb_le in Ek]; lia. }
  destruct (byte_at mbr (PARTITION_TABLE_OFFSET + 16 * k + 4) =? 129) eqn:Et; cbn [fst snd negb andb orb List.length].
  - split; [reflexivity|]. split; [lia|]. split; [|reflexivity]. intros _.
    exists mbr. split; [reflexivity|]. split; [split; assumption|].
    apply orb_false_iff in Ek as [Ek1 Ek2]. apply Z.ltb_ge in Ek1. apply Z.leb_gt in Ek2.
    split; [lia|]. apply Z.eqb_eq, Et.
  - split; [reflexivity|]. split; [lia|]. split; [discriminate|].
    intros (m & H & _ & _ & Ht). injection H; intros <-. apply Z.eqb_neq in Et. congruence.
Qed.

(** [get_partition_start] writes exactly one line to [stderr] when a check
    fails (the sector cannot be read, bad signature, number out of range,
    wrong type) and none when they pass; the value is that of
    [get_partition_start]. *)
Theorem get_partition_start_diagnostics (image : list Z) (k a : Z) :
  fst (get_partition_start_d image k a) = get_partition_start image k a /\
  (List.length (snd (get_partition_start_d image k a)) <= 1)%nat /\
  (snd (get_partition_start_d image k a) = [] <->
   exists mbr, read_at image (a - PARTITION_TABLE_OFFSET) SECTOR_SIZE = Some mbr /\
     mbr_signature_ok mbr /\ 0 <= k < 4 /\ part_type mbr k = 129).
Proof. apply get_partition_start_d_spec. Qed.

Lemma get_partition_start_d_fst (image : list Z) (k a : Z) :
  fst (get_partition_start_d image k a) = get_partition_start image k a.
Proof. reflexivity. Qed.




(** [minls] fails without printing anything, also with [-v], when the
    selected partition passes every check (signature, number in 0..3, type
    0x81) but starts at sector 0: [get_partition_start] reports failure with
    that same 0, and [init_filesystem] relies on it having printed the
    reason. *)
Theorem minls_silent_failure_lfirst_zero (ctime_text : Z -> string) (image : list Z)
  (image_file : string) (p s v : Z) (mbr : list Z) (path : list ascii) :
  p <> -1 -> read_at image 0 SECTOR_SIZE = Some mbr ->
  mbr_signature_ok mbr -> 0 <= p < 4 -> part_type mbr p = 129 -> part_lFirst mbr p = 0 ->
  minls_main ctime_text image image_file p s v path = Returns (1, []).
Proof.
  intros Hp Hr Hsig Hk Ht Hl.
  unfold minls_main, init_filesystem_d, init_fs_offset_d.
  replace (p =? -1) with false by (symmetry; apply Z.eqb_neq; exact Hp).
  destruct (get_partition_start_d_spec image p PARTITION_TABLE_OFFSET) as (F & _ & Hm).
  assert (Hv : get_partition_start image p PARTITION_TABLE_OFFSET = 0).
  { rewrite (get_partition_start_sector image p PARTITION_TABLE_OFFSET mbr) by exact Hr.
    rewrite sector_checks_pass by assumption. exact Hl. }
  assert (He : snd (get_partition_start_d image p PARTITION_TABLE_OFFSET) = []).
  { apply Hm. exists mbr. auto. }
  destruct (get_partition_start_d image p PARTITION_TABLE_OFFSET) as [v0 e].
  simpl in F, He. subst. rewrite Hv. reflexivity.
Qed.

Lemma minls_silent_failure_lfirst_zero_witness :
  minls_main (fun _ => EmptyString) img_lfirst0 "disk.img"%string 0 (-1) 1 ["/"%char] =
    Returns (1, []).
Proof.
  apply (minls_silent_failure_lfirst_zero (fun _ => EmptyString) img_lfirst0 "disk.img"%string
           0 (-1) 1 (sublist 0 512 img_lfirst0));
    first [ solve [zcheck] | split; zcheck ].
Defined.



(* ------------------------------------------------------------------ *)
(** ** minls *)

Lemma strrchr_slash_noslash (t : list ascii) : no_slash t -> strrchr_slash t = None.
Proof.
  induction t as [|c t IH]; intros H; [reflexivity|].
  inversion H; subst. simpl. rewrite IH by assumption. rewrite H2. reflexivity.
Qed.

Lemma strrchr_slash_last (l t : list ascii) :
  no_slash t -> strrchr_slash (l ++ "/"%char :: t) = Some t.
Proof.
  intros Ht. induction l as [|c l IH]; simpl.
  - rewrite strrchr_slash_noslash by exact Ht. reflexivity.
  - simpl in IH. rewrite IH. reflexivity.
Qed.

Lemma join_slash_split (ts : list (list ascii)) :
  ts <> [] -> exists l, "/"%char :: join_slash ts = l ++ "/"%char :: last ts [].
Proof.
  induction ts as [|t r IH]; [congruence|]. intros _.
  destruct r as [|t' r'].
  - exists []. simpl. rewrite app_nil_r. reflexivity.
  - destruct IH as [l Hl]; [discriminate|].
    exists ("/"%char :: t ++ l).
    change (join_slash (t :: t' :: r')) with (t ++ "/"%char :: join_slash (t' :: r')).
    change (last (t :: t' :: r') []) with (last (t' :: r') []).
    rewrite Hl. simpl. rewrite <- app_assoc. reflexivity.
Qed.

(** When the path given to [minls] names a file that is not a directory,
    [minls] exits with status 0.  After the messages of [init_filesystem]
    and of the path resolution, and, with [-v], the inode dump of
    [print_verbose_inode], it prints the entry line for that file, shown
    under the last component of the path ([.] when the path has no
    component, i.e. denotes the root). *)
Theorem minls_file_shown_by_last_component (ctime_text : Z -> string) (image : list Z)
  (image_file : string) (p s v : Z) (q : list ascii)
  (st : fs_state) (e e2 : list event) (x : Z) (ino : minix_inode_t) :
  init_filesystem_d image image_file p s v = Returns (Some st, e) ->
  get_inode_by_path st (canonicalize_path_l q) = Returns (x, e2) -> x <> 0 ->
  read_inode st x = Some ino -> is_dir_mode (mode ino) = false ->
  minls_main ctime_text image image_file p s v q =
  Returns (0, e ++ e2 ++ (if v =? 0 then [] else print_verbose_inode ctime_text x ino) ++
              list_single_entry st x
                (string_of_list_ascii
                   (match map fst (tokenize (c_str q)) with
                    | [] => ["."%char]
                    | ts => last ts []
                    end))).
Proof.
  intros Hi Hg Hx Hr Hd. unfold minls_main. rewrite Hi. cbv zeta. rewrite Hg.
  replace (x =? 0) with false by (symmetry; apply Z.eqb_neq; exact Hx).
  rewrite (read_inode_d_some st x ino Hr). cbv beta iota. rewrite Hd.
  rewrite app_nil_l. do 5 f_equal.
  rewrite (canonicalize_path_l_form q).
  destruct (tokens_wf (c_str q)) as [Hwf _].
  destruct (map fst (tokenize (c_str q))) as [|t r] eqn:Ets; [reflexivity|].
  destruct (join_slash_split (t :: r) ltac:(discriminate)) as [l Hl].
  assert (Hj : join_slash (t :: r) <> []).
  { intros E. apply join_slash_nil in E; [discriminate|].
    eapply Forall_impl; [|exact Hwf]. intros a [A _]; exact A. }
  destruct (join_slash (t :: r)) as [|c j] eqn:Ej; [congruence|].
  rewrite list_ascii_eqb_slash_cons. rewrite Hl.
  rewrite strrchr_slash_last; [reflexivity|].
  assert (Hin : In (last (t :: r) []) (t :: r)) by (apply last_in; discriminate).
  rewrite Forall_forall in Hwf. apply Hwf, Hin.
Qed.

Lemma minls_file_shown_by_last_component_witness :
  minls_main (fun _ => EmptyString) img1 "disk.img"%string (-1) (-1) 0
    ["/"%char; "/"%char; "a"%char; "/"%char] =
  Returns (0, [] ++ [] ++ [] ++ list_single_entry st1 2 "a").
Proof.
  pose proof (minls_file_shown_by_last_component (fun _ => EmptyString) img1 "disk.img"%string
                (-1) (-1) 0 ["/"%char; "/"%char; "a"%char; "/"%char] st1 [] [] 2
                (parse_inode (sublist 192 64 img1))
                ltac:(zcheck) ltac:(zcheck) ltac:(zcheck) ltac:(zcheck) ltac:(zcheck)) as H.
  rewrite H. vm_compute. reflexivity.
Defined.

Lemma list_directory_contents_dir (st : fs_state) (n : Z) (path : string) (d : minix_inode_t) :
  read_inode st n = Some d -> is_dir_mode (mode d) = true ->
  match list_directory_contents st n path with
  | Returns (status, _) => status = 0
  | _ => True
  end.
Proof.
  intros Hn Hd. unfold list_directory_contents.
  rewrite (read_inode_d_some st n d Hn). cbv beta iota zeta. rewrite Hd. cbn [negb].
  destruct (loop_u32 _ _); reflexivity || exact I.
Qed.

(** Once the path names a readable directory, [minls] exits with status 0
    whenever it ends without undefined behaviour: errors met while listing
    the directory's entries are printed but do not change the exit
    status. *)
Theorem minls_directory_exit_zero (ctime_text : Z -> string) (image : list Z)
  (image_file : string) (p s v : Z) (q : list ascii)
  (st : fs_state) (e e2 : list event) (x : Z) (d : minix_inode_t) :
  init_filesystem_d image image_file p s v = Returns (Some st, e) ->
  get_inode_by_path st (canonicalize_path_l q) = Returns (x, e2) -> x <> 0 ->
  read_inode st x = Some d -> is_dir_mode (mode d) = true ->
  match minls_main ctime_text image image_file p s v q with
  | Returns (status, _) => status = 0
  | _ => True
  end.
Proof.
  intros Hi Hg Hx Hr Hd. unfold minls_main. rewrite Hi. cbv zeta. rewrite Hg.
  replace (x =? 0) with false by (symmetry; apply Z.eqb_neq; exact Hx).
  rewrite (read_inode_d_some st x d Hr). cbv beta iota. rewrite Hd.
  pose proof (list_directory_contents_dir st x
                (string_of_list_ascii (canonicalize_path_l q)) d Hr Hd) as H.
  destruct (list_directory_contents _ _ _) as [[status e3]| |]; [|exact I|exact I].
  subst status. reflexivity.
Qed.

Lemma minls_directory_exit_zero_witness :
  match minls_main (fun _ => EmptyString) img1 "disk.img"%string (-1) (-1) 1 [] with
  | Returns (status, _) => status = 0
  | _ => True
  end.
Proof.
  exact (minls_directory_exit_zero (fun _ => EmptyString) img1 "disk.img"%string (-1) (-1) 1 []
           st1_v (print_verbose_superblk "disk.img"%string (-1) (-1) st1_v) [] 1 img1_root
           ltac:(zcheck) ltac:(zcheck) ltac:(zcheck) ltac:(zcheck) ltac:(zcheck)).
Defined.

Section FormattedOutput.
Local Open Scope string_scope.

Lemma string_of_uint_length (d : Decimal.uint) :
  String.length (NilEmpty.string_of_uint d) = Decimal.nb_digits d.
Proof. induction d; simpl; congruence. Qed.

Lemma of_lu_little_succ (d : Decimal.uint) :
  DecimalPos.Unsigned.of_lu (Decimal.Little.succ d) = (DecimalPos.Unsigned.of_lu d + 1)%N.
Proof.
  induction d; cbn [DecimalPos.Unsigned.of_lu Decimal.Little.succ]; try rewrite IHd; lia.
Qed.

Lemma of_lu_to_lu (n : N) : DecimalPos.Unsigned.of_lu (DecimalPos.Unsigned.to_lu n) = n.
Proof.
  induction n as [|n IH] using N.peano_ind; [reflexivity|].
  rewrite DecimalPos.Unsigned.to_lu_succ, of_lu_little_succ, IH. lia.
Qed.

Lemma of_lu_bound (d : Decimal.uint) :
  (DecimalPos.Unsigned.of_lu d < 10 ^ N.of_nat (Decimal.nb_digits d))%N.
Proof.
  induction d; [simpl; lia|..]; cbn [Decimal.nb_digits DecimalPos.Unsigned.of_lu]; rewrite Stdlib.NArith.Nnat.Nat2N.inj_succ, N.pow_succ_r'; lia.
Qed.

(** Carrying out of the last digit happens only past a run of nines. *)
Lemma little_succ_digits (d : Decimal.uint) :
  Decimal.nb_digits (Decimal.Little.succ d) = Decimal.nb_digits d \/
  (Decimal.nb_digits (Decimal.Little.succ d) = S (Decimal.nb_digits d) /\
   (DecimalPos.Unsigned.of_lu d + 1 = 10 ^ N.of_nat (Decimal.nb_digits d))%N).
Proof.
  induction d; cbn [Decimal.nb_digits Decimal.Little.succ DecimalPos.Unsigned.of_lu]; auto.
  destruct IHd as [H|[H1 H2]]; [left; lia|right].
  split; [lia|]. rewrite Stdlib.NArith.Nnat.Nat2N.inj_succ, N.pow_succ_r'. lia.
Qed.

Lemma to_lu_digits (n : N) :
  (1 <= Decimal.nb_digits (DecimalPos.Unsigned.to_lu n))%nat /\
  (n = 0 \/ 10 ^ N.of_nat (Decimal.nb_digits (DecimalPos.Unsigned.to_lu n) - 1) <= n)%N.
Proof.
  induction n as [|n IH] using N.peano_ind; [simpl; lia|].
  rewrite DecimalPos.Unsigned.to_lu_succ.
  pose proof (of_lu_to_lu n) as Hv.
  destruct (little_succ_digits (DecimalPos.Unsigned.to_lu n)) as [H|[H1 H2]];
    rewrite ?H, ?H1; destruct IH as [IH1 IH2]; split; try lia.
  - right. destruct IH2 as [->|IH2].
    + destruct (Decimal.nb_digits (DecimalPos.Unsigned.to_lu 0)) as [|[|k]] eqn:E; simpl in E; try lia.
      simpl. lia.
    + lia.
  - right. rewrite Hv in H2. replace (S (Decimal.nb_digits (DecimalPos.Unsigned.to_lu n)) - 1)%nat
      with (Decimal.nb_digits (DecimalPos.Unsigned.to_lu n)) by lia. lia.
Qed.

Lemma nb_digits_to_uint (n : N) :
  Decimal.nb_digits (N.to_uint n) = Decimal.nb_digits (DecimalPos.Unsigned.to_lu n).
Proof. destruct n; [reflexivity|]. apply DecimalFacts.nb_digits_rev. Qed.

(** [fmt_u x] has [k] digits exactly when [10^(k-1) <= x < 10^k]. *)
Lemma fmt_u_length (x : Z) :
  let k := String.length (fmt_u x) in
  (1 <= k)%nat /\ (Z.to_N x < 10 ^ N.of_nat k)%N /\
  (Z.to_N x = 0 \/ 10 ^ N.of_nat (k - 1) <= Z.to_N x)%N.
Proof.
  unfold fmt_u. cbv zeta. rewrite string_of_uint_length, nb_digits_to_uint.
  destruct (to_lu_digits (Z.to_N x)) as [H1 H2].
  pose proof (of_lu_bound (DecimalPos.Unsigned.to_lu (Z.to_N x))) as H3.
  rewrite of_lu_to_lu in H3. auto.
Qed.

Lemma fmt_u_width (x : Z) :
  (x < 10 ^ 9 -> (String.length (fmt_u x) <= 9)%nat) /\
  (10 ^ 9 <= x < 10 ^ 10 -> String.length (fmt_u x) = 10%nat).
Proof.
  destruct (fmt_u_length x) as (H1 & H2 & H3).
  set (k := String.length (fmt_u x)) in *.
  split.
  - intros Hx. destruct (Nat.le_gt_cases k 9) as [Hk|Hk]; [exact Hk|exfalso].
    destruct H3 as [H3|H3].
    + assert (k = 1%nat) by (unfold k, fmt_u; rewrite H3; reflexivity). lia.
    + assert (10 ^ 9 <= 10 ^ N.of_nat (k - 1))%N by (apply N.pow_le_mono_r; lia).
      assert (Z.to_N x < 10 ^ 9)%N.
      { destruct (Z.le_gt_cases x 0) as [Hn|Hn]; [destruct x; simpl; try lia; reflexivity|].
        apply N2Z.inj_lt. rewrite Z2N.id by lia. lia. }
      lia.
  - intros Hx. assert (Hn : (10 ^ 9 <= Z.to_N x < 10 ^ 10)%N).
    { split; apply N2Z.inj_le || apply N2Z.inj_lt; rewrite Z2N.id by lia; lia. }
    destruct (Nat.lt_trichotomy k 10) as [Hk|[Hk|Hk]]; [exfalso| exact Hk |exfalso].
    + assert (10 ^ N.of_nat k <= 10 ^ 9)%N by (apply N.pow_le_mono_r; lia). lia.
    + destruct H3 as [H3|H3]; [lia|].
      assert (10 ^ 10 <= 10 ^ N.of_nat (k - 1))%N by (apply N.pow_le_mono_r; lia). lia.
Qed.

Lemma spaces_length (m : nat) : String.length (String.concat "" (repeat " " m)) = m.
Proof. induction m as [|m IH]; [reflexivity|]. destruct m; simpl in *; [reflexivity|]. rewrite IH. reflexivity. Qed.

Lemma spaces_only (m : nat) (c : ascii) :
  In c (list_ascii_of_string (String.concat "" (repeat " " m))) -> c = " "%char.
Proof.
  induction m as [|m IH]; simpl; [tauto|]. destruct m; simpl in *; [intuition|].
  intros [->|H]; [reflexivity|]. exact (IH H).
Qed.

Lemma string_length_app (a b : string) : String.length (a ++ b) = (String.length a + String.length b)%nat.
Proof. induction a; simpl; congruence. Qed.

Lemma string_app_assoc (a b c : string) : ((a ++ b) ++ c = a ++ b ++ c)%string.
Proof. induction a; simpl; congruence. Qed.

(** [list_single_entry] prints one line for a readable inode: the permission
    string, a space, the size right-aligned with spaces in a field of nine
    ([%9u]), a space, the name and a newline.  The digits read back as the
    inode's size; a size of ten digits widens the field to ten. *)
Theorem list_single_entry_line (st : fs_state) (n : Z) (name : string) (e : minix_inode_t) :
  read_inode st n = Some e ->
  let digits := fmt_u (size e) in
  exists pad : string,
    list_single_entry st n name =
      [Out (get_permissions_string (mode e) ++ " " ++ pad ++ digits ++ " " ++ name ++ nl)] /\
    (forall c, In c (list_ascii_of_string pad) -> c = " "%char) /\
    option_map N.of_uint (NilEmpty.uint_of_string digits) = Some (Z.to_N (size e)) /\
    (size e < 10 ^ 9 -> String.length (pad ++ digits) = 9%nat) /\
    (10 ^ 9 <= size e < 10 ^ 10 -> pad = "" /\ String.length digits = 10%nat).
Proof.
  intros He digits. exists (String.concat "" (repeat " " (9 - String.length digits))).
  destruct (fmt_u_width (size e)) as [W1 W2].
  unfold list_single_entry. rewrite (read_inode_d_some st n e He). split; [|split; [|split; [|split]]].
  - unfold fmt_u9. rewrite string_app_assoc. reflexivity.
  - intros c. apply spaces_only.
  - unfold digits, fmt_u. rewrite NilEmpty.usu. simpl. rewrite DecimalN.Unsigned.of_to. reflexivity.
  - intros Hs. specialize (W1 Hs). rewrite string_length_app, spaces_length. fold digits in W1. lia.
  - intros Hs. specialize (W2 Hs). fold digits in W2. rewrite W2. split; reflexivity.
Qed.

Lemma list_single_entry_line_witness :
  exists pad : string,
    list_single_entry st1 2 "a" =
      [Out (get_permissions_string (mode (parse_inode (sublist 192 64 img1))) ++ " " ++ pad ++
            fmt_u (size (parse_inode (sublist 192 64 img1))) ++ " " ++ "a" ++ nl)] /\
    String.length (pad ++ fmt_u (size (parse_inode (sublist 192 64 img1)))) = 9%nat.
Proof.
  destruct (list_single_entry_line st1 2 "a" (parse_inode (sublist 192 64 img1)) ltac:(zcheck))
    as (pad & H1 & _ & _ & H4 & _).
  exists pad. split; [exact H1|]. apply H4. vm_compute. reflexivity.
Defined.

End FormattedOutput.

Lemma resolve_components_path_irrelevant (st : fs_state) (cp1 cp2 : list ascii)
  (n : Z) (toks : list (list ascii * list ascii)) :
  match resolve_components st cp1 n toks, resolve_components st cp2 n toks with
  | Returns (x, e1), Returns (y, e2) =>
      x = y /\
      (e1 = e2 \/ exists pre, e1 = pre ++ [Err (not_a_directory_msg cp1)] /\
                              e2 = pre ++ [Err (not_a_directory_msg cp2)])
  | Diverges, Diverges => True
  | Undefined, Undefined => True
  | _, _ => False
  end.
Proof.
  revert n; induction toks as [|[t nx] toks IH]; intros n; simpl.
  { split; [reflexivity | left; reflexivity]. }
  destruct (read_inode_d st n) as [[d|] e0]; [|split; [reflexivity | left; reflexivity]].
  destruct (scan_dir st d (bytes_of t)) as [[x e1]| |]; [|exact I|exact I].
  destruct (x =? 0); [split; [reflexivity | left; reflexivity]|].
  destruct (read_inode_d st x) as [[dx|] e2]; [|split; [reflexivity | left; reflexivity]].
  destruct (_ && _).
  { split; [reflexivity|]. right. exists (e0 ++ e1 ++ e2).
    rewrite <- !app_assoc. split; reflexivity. }
  specialize (IH x).
  destruct (resolve_components st cp1 x toks) as [[y1 f1]| |];
    destruct (resolve_components st cp2 x toks) as [[y2 f2]| |]; try contradiction; try exact I.
  destruct IH as [-> [->|(pre & -> & ->)]]; split; try reflexivity.
  - left; reflexivity.
  - right. exists (e0 ++ e1 ++ e2 ++ pre). rewrite <- !app_assoc. split; reflexivity.
Qed.

Lemma c_str_firstn_c_str (n : nat) (l : list ascii) :
  c_str (firstn n (c_str l)) = c_str (firstn n l).
Proof.
  revert n; induction l as [|c l IH]; intros n; [destruct n; reflexivity|].
  destruct n as [|n]; [reflexivity|]. cbn [c_str firstn].
  destruct (Ascii.eqb c "000") eqn:E; cbn [firstn c_str]; rewrite ?E; [reflexivity|].
  rewrite IH. reflexivity.
Qed.

(** [get_inode_by_path] copies at most 1023 characters after the leading
    slash into [path_copy]: a longer path resolves to the same inode (or
    diverges, or meets undefined behaviour, in the same way) as its first
    1024 characters, and prints the same messages, except that a
    not-a-directory message names the full path it was given. *)
Theorem get_inode_by_path_truncates (st : fs_state) (r : list ascii) :
  match get_inode_by_path st ("/"%char :: r),
        get_inode_by_path st ("/"%char :: firstn 1023 r) with
  | Returns (x, e1), Returns (y, e2) =>
      x = y /\
      (e1 = e2 \/ exists pre,
         e1 = pre ++ [Err (not_a_directory_msg (c_str ("/"%char :: r)))] /\
         e2 = pre ++ [Err (not_a_directory_msg (c_str ("/"%char :: firstn 1023 r)))])
  | Diverges, Diverges => True
  | Undefined, Undefined => True
  | _, _ => False
  end.
Proof.
  unfold get_inode_by_path. cbn [c_str tl].
  change (Ascii.eqb "/" "000") with false. cbv iota.
  cbn [tl]. rewrite !c_str_firstn_c_str, firstn_firstn, Nat.min_id.
  destruct r as [|c r]; [split; [reflexivity | left; reflexivity]|].
  cbn [firstn c_str]. destruct (Ascii.eqb c "000").
  - destruct (list_ascii_eqb ["/"%char] ["/"%char]);
      [split; [reflexivity | left; reflexivity]|].
    apply resolve_components_path_irrelevant.
  - rewrite !list_ascii_eqb_slash_cons. apply resolve_components_path_irrelevant.
Qed.

(** [main] resolves and prints the canonical form of its path argument:
    running minls on a path and on [canonicalize_path] of it gives the same
    exit status and the same output. *)
Theorem minls_main_canonical_path (ctime_text : Z -> string) (image : list Z)
  (image_file : string) (p_num s_num v : Z) (q : list ascii) :
  minls_main ctime_text image image_file p_num s_num v (canonicalize_path_l q) =
  minls_main ctime_text image image_file p_num s_num v q.
Proof.
  unfold minls_main. rewrite canonicalize_path_l_idem. reflexivity.
Qed.
